(** * Audio pacer: segmentation, pause resynthesis, merging and PCM conversion

    A shallow embedding of [src/services/audioProcessor.ts].

    Numbers.  Every JavaScript number of the program (sample values, the
    settings, loop indices, buffer positions) is modelled by an exact
    rational of [Q]; equality of numbers is [Qeq].  The model agrees with
    the program wherever the double-precision operations of the program are
    exact, and it has no NaN: the only place where the program meets NaN on
    well-formed input is [Math.abs(undefined)], the read of a typed array at
    an index that is not one of its positions, and that read is modelled by
    [None], on which both comparisons are false.

    Effects.  [setProgress] and [audioContext.createBuffer] are recorded in
    a log that is threaded through the two exported functions; a thrown
    error ends the call and keeps the log as it was at the throw.  The
    decoder ([audioContext.decodeAudioData]) and the block encoder
    ([lamejs]) are parameters. *)

From Stdlib Require Import QArith Qround Qabs Lqa ZArith Lia List Bool.
From Stdlib Require Import Ascii String DecimalString.
From Stdlib Require Import PrimFloat.
Import ListNotations.
Open Scope Q_scope.
Set Warnings "-abstract-large-number".

(** * Part I: the program *)

(** ** Numbers *)

Definition Qltb (a b : Q) : bool := negb (Qle_bool b a).

(** [Math.ceil], [Math.round] (halves go up) and the truncation toward zero
    that typed arrays and index arguments apply to a number. *)
Definition Math_ceil (x : Q) : Z := Qceiling x.
Definition Math_round (x : Q) : Z := Qfloor (x + (1 # 2)).
Definition trunc (x : Q) : Z := if Qle_bool 0 x then Qfloor x else Qceiling x.

Definition Math_max (a b : Q) : Q := if Qle_bool a b then b else a.
Definition Math_min (a b : Q) : Q := if Qle_bool a b then a else b.

Definition of_nat (n : nat) : Q := inject_Z (Z.of_nat n).

(** Numbers inside template literals.  Whole numbers print in decimal; the
    counts and sample rates that the program prints are whole, and any
    other number prints as numerator and denominator. *)
Definition string_of_nat (n : nat) : string :=
  NilEmpty.string_of_uint (Nat.to_uint n).
Definition string_of_Z (z : Z) : string :=
  NilEmpty.string_of_int (Z.to_int z).
Definition string_of_number (x : Q) : string :=
  let r := Qred x in
  match Qden r with
  | 1%positive => string_of_Z (Qnum r)
  | d => (string_of_Z (Qnum r) ++ "/" ++ string_of_Z (Zpos d))%string
  end.

(** ** Results and the effect log *)

(** Outcome of a call: a value, a thrown error with its message, or a
    computation cut off for lack of fuel. *)
Inductive result (A : Type) : Type :=
| Ok (a : A)
| Throw (message : string)
| OutOfFuel.
Arguments Ok {A} a.
Arguments Throw {A} message.
Arguments OutOfFuel {A}.

Definition rbind {A B} (r : result A) (k : A -> result B) : result B :=
  match r with
  | Ok a => k a
  | Throw e => Throw e
  | OutOfFuel => OutOfFuel
  end.

Inductive event : Type :=
| Progress (message : string)
| CreateBuffer (numberOfChannels : nat) (length : Z) (sampleRate : Q).

Definition World := list event.

Definition M (A : Type) : Type := World -> result A * World.

Definition ret {A} (a : A) : M A := fun w => (Ok a, w).
Definition throw {A} (message : string) : M A := fun w => (Throw message, w).
Definition lift {A} (r : result A) : M A := fun w => (r, w).
Definition bind {A B} (c : M A) (k : A -> M B) : M B :=
  fun w =>
    match c w with
    | (Ok a, w') => k a w'
    | (Throw e, w') => (Throw e, w')
    | (OutOfFuel, w') => (OutOfFuel, w')
    end.

Declare Scope js_scope.
Delimit Scope js_scope with js.
Notation "x <- c ;; k" := (bind c (fun x => k))
  (at level 61, c at next level, right associativity) : js_scope.
Notation "c ;; k" := (bind c (fun _ => k))
  (at level 61, right associativity) : js_scope.
Notation "x <-- r ;; k" := (rbind r (fun x => k))
  (at level 61, r at next level, right associativity) : js_scope.

Definition setProgress (message : string) : M unit :=
  fun w => (Ok tt, w ++ [Progress message]).

Definition progress_messages (w : World) : list string :=
  flat_map (fun e => match e with Progress m => [m] | _ => [] end) w.

Definition buffers_created (w : World) : nat :=
  List.length (filter (fun e => match e with CreateBuffer _ _ _ => true | _ => false end) w).

(** ** Typed arrays and audio buffers *)

Definition Float32Array := list Q.
Definition Int16Array := list Z.

(** [a[i]] for a number [i]: a value when [i] is a position of the array,
    [undefined] (here [None]) otherwise, in particular when [i] has a
    fractional part. *)
Definition as_index (i : Q) : option nat :=
  let z := Qfloor i in
  if Qeq_bool (inject_Z z) i && (0 <=? z)%Z then Some (Z.to_nat z) else None.

Definition get (a : Float32Array) (i : Q) : option Q :=
  match as_index i with
  | Some n => nth_error a n
  | None => None
  end.

(** [Math.abs(a[i]) > t] and [Math.abs(a[i]) < t]. *)
Definition abs_gt (s : option Q) (t : Q) : bool :=
  match s with Some x => Qltb t (Qabs x) | None => false end.
Definition abs_lt (s : option Q) (t : Q) : bool :=
  match s with Some x => Qltb (Qabs x) t | None => false end.

(** [a.subarray(b, e)]: both ends are truncated, counted from the end when
    negative, and clamped to the array. *)
Definition relative_index (n : Z) (x : Q) : Z :=
  let t := trunc x in
  if (t <? 0)%Z then Z.max (n + t) 0 else Z.min t n.

Definition subarray {A} (a : list A) (b e : Q) : list A :=
  let n := Z.of_nat (List.length a) in
  let from := relative_index n b in
  let to := relative_index n e in
  firstn (Z.to_nat (to - from)) (skipn (Z.to_nat from) a).

(** [dest.set(src, offset)]: a [RangeError] when the source does not fit. *)
Definition TypedArray_set {A} (dest src : list A) (offset : Z)
  : result (list A) :=
  if ((offset <? 0) || (Z.of_nat (List.length dest) <? offset + Z.of_nat (List.length src)))%Z
  then Throw "RangeError: offset is out of bounds"
  else Ok (firstn (Z.to_nat offset) dest ++ src ++
           skipn (Z.to_nat offset + List.length src) dest).

Record AudioBuffer := mkAudioBuffer {
  sampleRate : Q;
  length : nat;
  channels : list Float32Array
}.

Definition numberOfChannels (b : AudioBuffer) : nat := List.length (channels b).

(** The shape every [AudioBuffer] of the Web Audio API has. *)
Definition wf_AudioBuffer (b : AudioBuffer) : Prop :=
  (1 <= numberOfChannels b)%nat /\
  (1 <= length b)%nat /\
  Forall (fun c => List.length c = length b) (channels b).

Definition getChannelData (b : AudioBuffer) (c : nat) : result Float32Array :=
  match nth_error (channels b) c with
  | Some d => Ok d
  | None => Throw "IndexSizeError"
  end.

(** The write through [b.getChannelData(c)]: the view aliases the buffer. *)
Fixpoint replace_nth {A} (l : list A) (n : nat) (x : A) : list A :=
  match l, n with
  | [], _ => []
  | _ :: t, O => x :: t
  | h :: t, S n' => h :: replace_nth t n' x
  end.

Definition setChannelData (b : AudioBuffer) (c : nat) (d : Float32Array)
  : AudioBuffer :=
  mkAudioBuffer (sampleRate b) (length b) (replace_nth (channels b) c d).

(** [audioContext.createBuffer]: a zero-filled buffer; no channel or no
    frame is a [NotSupportedError]. *)
Definition createBuffer (numberOfChannels : nat) (length : Z) (sampleRate : Q)
  : M AudioBuffer :=
  fun w =>
    if ((length <=? 0)%Z || (numberOfChannels =? 0)%nat)%bool
    then (Throw "NotSupportedError", w)
    else (Ok (mkAudioBuffer sampleRate (Z.to_nat length)
                (repeat (repeat 0 (Z.to_nat length)) numberOfChannels)),
          w ++ [CreateBuffer numberOfChannels length sampleRate]).

Record Settings := mkSettings {
  silenceThreshold : Q;
  minSilenceDuration : Q;
  pauseMultiplier : Q
}.

Record SpeechChunk := mkChunk { start : Q; end_ : Q }.

(** ** detectSpeechChunks *)

Section Segmenter.
Variable channelData : Float32Array.
Variable threshold : Q.
Variable minSilenceSamples : Q.

(** The inner [for] loop over [j]: [Some (Some j)] when it breaks at a
    sample [j] above the threshold, [Some None] when it runs to its end. *)
Fixpoint lookahead (fuel : nat) (i j : Q) : option (option Q) :=
  match fuel with
  | O => None
  | S fuel' =>
      if Qltb j (i + minSilenceSamples)
         && Qltb j (of_nat (List.length channelData)) then
        if abs_gt (get channelData j) threshold then Some (Some j)
        else lookahead fuel' i (j + 1)
      else Some None
  end.

(** The outer [for] loop over [i], from the state [(i, speechStart,
    chunks)]; it returns [speechStart] and [chunks] at loop exit. *)
Fixpoint scan (fuel : nat) (i speechStart : Q) (chunks : list SpeechChunk)
  : option (Q * list SpeechChunk) :=
  match fuel with
  | O => None
  | S fuel' =>
      if Qltb i (of_nat (List.length channelData)) then
        let speechStart1 :=
          if abs_gt (get channelData i) threshold && Qltb speechStart 0
          then i else speechStart in
        if abs_lt (get channelData i) threshold && Qle_bool 0 speechStart1
        then
          match lookahead (S (List.length channelData)) i i with
          | None => None
          | Some (Some j) => scan fuel' (j + 1) speechStart1 chunks
          | Some None =>
              scan fuel' (i + minSilenceSamples + 1) (-1)
                   (chunks ++ [mkChunk speechStart1 i])
          end
        else scan fuel' (i + 1) speechStart1 chunks
      else Some (speechStart, chunks)
  end.
End Segmenter.

Definition minSilenceSamples (audioBuffer : AudioBuffer) (settings : Settings) : Q :=
  sampleRate audioBuffer * minSilenceDuration settings.

Definition detectSpeechChunks_fuel (fuel : nat) (audioBuffer : AudioBuffer)
    (settings : Settings) : result (list SpeechChunk) :=
  match getChannelData audioBuffer 0 with
  | Ok channelData =>
      match scan channelData (silenceThreshold settings)
                 (minSilenceSamples audioBuffer settings) fuel 0 (-1) [] with
      | Some (speechStart, chunks) =>
          Ok (if Qle_bool 0 speechStart
              then chunks ++ [mkChunk speechStart (of_nat (List.length channelData))]
              else chunks)
      | None => OutOfFuel
      end
  | Throw m => Throw m
  | OutOfFuel => OutOfFuel
  end.

(** One unit of fuel per sample and one for the exit test: enough whenever
    the silence window is not negative (lemma [scan_fuel_enough]). *)
Definition detectSpeechChunks (audioBuffer : AudioBuffer) (settings : Settings)
  : result (list SpeechChunk) :=
  match getChannelData audioBuffer 0 with
  | Ok channelData =>
      detectSpeechChunks_fuel (S (List.length channelData)) audioBuffer settings
  | Throw m => Throw m
  | OutOfFuel => OutOfFuel
  end.

(** ** createPaddedAudio *)

(** The first loop: the length of the new buffer before rounding up. *)
Definition totalLength_of (chunks : list SpeechChunk) (pauseMultiplier : Q) : Q :=
  fold_left
    (fun totalLength chunk =>
       let chunkDuration := end_ chunk - start chunk in
       totalLength + chunkDuration * (1 + pauseMultiplier))
    chunks 0.

(** The loop over the chunks of one channel, from [currentPosition]. *)
Fixpoint copy_chunks (originalData newData : Float32Array) (pauseMultiplier : Q)
    (chunks : list SpeechChunk) (currentPosition : Q) : result Float32Array :=
  match chunks with
  | [] => Ok newData
  | chunk :: rest =>
      let chunkDuration := end_ chunk - start chunk in
      let chunkData := subarray originalData (start chunk) (end_ chunk) in
      match TypedArray_set newData chunkData (Math_round currentPosition) with
      | Ok newData' =>
          copy_chunks originalData newData' pauseMultiplier rest
            (currentPosition + chunkDuration + chunkDuration * pauseMultiplier)
      | Throw e => Throw e
      | OutOfFuel => OutOfFuel
      end
  end.

(** The loop over the channels: [count] channels are left, from [channel]. *)
Fixpoint fill_channels (originalBuffer : AudioBuffer) (chunks : list SpeechChunk)
    (pauseMultiplier : Q) (count channel : nat) (newBuffer : AudioBuffer)
  : result AudioBuffer :=
  match count with
  | O => Ok newBuffer
  | S count' =>
      (originalData <-- getChannelData originalBuffer channel ;;
       newData <-- getChannelData newBuffer channel ;;
       newData' <-- copy_chunks originalData newData pauseMultiplier chunks 0 ;;
       fill_channels originalBuffer chunks pauseMultiplier count' (S channel)
         (setChannelData newBuffer channel newData'))%js
  end.

Definition createPaddedAudio (originalBuffer : AudioBuffer)
    (chunks : list SpeechChunk) (settings : Settings) : M AudioBuffer :=
  let totalLength := totalLength_of chunks (pauseMultiplier settings) in
  if Qeq_bool totalLength 0 then
    throw "No speech detected in the audio file. Try adjusting the silence threshold."
  else
    (newBuffer <- createBuffer (numberOfChannels originalBuffer)
                    (Math_ceil totalLength) (sampleRate originalBuffer) ;;
     lift (fill_channels originalBuffer chunks (pauseMultiplier settings)
             (numberOfChannels originalBuffer) 0 newBuffer))%js.

(** ** encodeMp3 *)

(** Storing a number into an [Int16Array]: truncate, then wrap to 16 bits. *)
Definition ToInt16 (x : Q) : Z :=
  ((trunc x + 32768) mod 65536 - 32768)%Z.

Definition convertSample (x : Q) : Z :=
  ToInt16 (Math_max (-1) (Math_min 1 x) * 32767).

Definition convertBuffer (buffer : Float32Array) : Int16Array :=
  map convertSample buffer.

Definition Int8Array := list Z.

Record Blob := mkBlob { parts : list Int8Array; type_ : string }.

(** The block encoder of [lamejs], with its state made explicit. *)
Record Lamejs (EncoderState : Type) := mkLamejs {
  Mp3Encoder : nat -> Q -> nat -> EncoderState;
  encodeBuffer : EncoderState -> Int16Array -> option Int16Array ->
                 EncoderState * Int8Array;
  flush : EncoderState -> Int8Array
}.
Arguments Mp3Encoder {EncoderState} _ _ _ _.
Arguments encodeBuffer {EncoderState} _ _ _ _.
Arguments flush {EncoderState} _ _.

Definition sampleBlockSize : nat := 1152.

Definition push_nonempty (mp3Data : list Int8Array) (mp3buf : Int8Array)
  : list Int8Array :=
  if (0 <? List.length mp3buf)%nat then mp3Data ++ [mp3buf] else mp3Data.

Section Encoder.
Variable EncoderState : Type.
Variable lamejs : option (Lamejs EncoderState).

(** The loop over the blocks, from sample [i]. *)
Fixpoint encode_blocks (fuel : nat) (lib : Lamejs EncoderState)
    (mp3encoder : EncoderState) (left : Int16Array) (right : option Int16Array)
    (i : nat) (mp3Data : list Int8Array)
  : result (EncoderState * list Int8Array) :=
  match fuel with
  | O => OutOfFuel
  | S fuel' =>
      if (i <? List.length left)%nat then
        let leftChunk := subarray left (of_nat i) (of_nat (i + sampleBlockSize)) in
        let rightChunk :=
          option_map (fun r => subarray r (of_nat i) (of_nat (i + sampleBlockSize)))
                     right in
        let (mp3encoder', mp3buf) := encodeBuffer lib mp3encoder leftChunk rightChunk in
        encode_blocks fuel' lib mp3encoder' left right (i + sampleBlockSize)
                      (push_nonempty mp3Data mp3buf)
      else Ok (mp3encoder, mp3Data)
  end.

Definition encodeMp3 (audioBuffer : AudioBuffer) : result Blob :=
  match lamejs with
  | None => Throw "lamejs library is not loaded. Please include it in your HTML."
  | Some lib =>
      let mp3encoder :=
        Mp3Encoder lib (numberOfChannels audioBuffer) (sampleRate audioBuffer) 128 in
      (channel0 <-- getChannelData audioBuffer 0 ;;
       let left := convertBuffer channel0 in
       right <-- (if (1 <? numberOfChannels audioBuffer)%nat
                  then channel1 <-- getChannelData audioBuffer 1 ;;
                       Ok (Some (convertBuffer channel1))
                  else Ok None) ;;
       encoded <-- encode_blocks (S (List.length left)) lib mp3encoder left right 0 [] ;;
       Ok (mkBlob (push_nonempty (snd encoded) (flush lib (fst encoded)))
                  "audio/mpeg"))%js
  end.
End Encoder.

(** ** processAudioFile and mergeAudioFiles *)

Record File := mkFile { name : string; arrayBuffer : list Z }.

Section Pipelines.
Variable decodeAudio : File -> result AudioBuffer.
Variable EncoderState : Type.
Variable lamejs : option (Lamejs EncoderState).

Definition processAudioFile (file : File) (settings : Settings) : M Blob :=
  (setProgress "Step 1/4: Decoding audio..." ;;
   originalBuffer <- lift (decodeAudio file) ;;
   setProgress "Step 2/4: Analyzing for speech..." ;;
   speechChunks <- lift (detectSpeechChunks originalBuffer settings) ;;
   if (List.length speechChunks =? 0)%nat then
     throw "Could not detect any speech. Please try adjusting the 'Silence Threshold' slider to be lower."
   else
     setProgress ("Step 3/4: Reconstructing audio with pauses... (found "
                  ++ string_of_nat (List.length speechChunks) ++ " phrases)") ;;
     newBuffer <- createPaddedAudio originalBuffer speechChunks settings ;;
     setProgress "Step 4/4: Encoding final MP3 file..." ;;
     lift (encodeMp3 EncoderState lamejs newBuffer))%js.

(** The decoding loop, at file number [i] of [count]. *)
Fixpoint decode_all (files : list File) (count i : nat)
    (decodedBuffers : list AudioBuffer) : M (list AudioBuffer) :=
  match files with
  | [] => ret decodedBuffers
  | file :: rest =>
      (setProgress ("Decoding " ++ string_of_nat (i + 1) ++ "/"
                    ++ string_of_nat count ++ ": " ++ name file ++ "...") ;;
       buffer <- lift (decodeAudio file) ;;
       decode_all rest count (S i) (decodedBuffers ++ [buffer]))%js
  end.

(** The validation loop; it returns [totalLength]. *)
Fixpoint validate (decodedBuffers : list AudioBuffer) (sampleRate0 : Q)
    (numberOfChannels0 : nat) (totalLength : nat) : result nat :=
  match decodedBuffers with
  | [] => Ok totalLength
  | buffer :: rest =>
      if negb (Qeq_bool (sampleRate buffer) sampleRate0) then
        Throw ("Mismatched sample rates. All files must have a sample rate of "
               ++ string_of_number sampleRate0 ++ " Hz.")
      else if negb (numberOfChannels buffer =? numberOfChannels0)%nat then
        Throw ("Mismatched channel counts. All files must have "
               ++ string_of_nat numberOfChannels0 ++ " channel(s).")
      else validate rest sampleRate0 numberOfChannels0 (totalLength + length buffer)
  end.

(** The copy of one buffer, channel by channel, at [offset]. *)
Fixpoint copy_channels (buffer : AudioBuffer) (offset : nat) (count channel : nat)
    (mergedBuffer : AudioBuffer) : result AudioBuffer :=
  match count with
  | O => Ok mergedBuffer
  | S count' =>
      (dest <-- getChannelData mergedBuffer channel ;;
       src <-- getChannelData buffer channel ;;
       dest' <-- TypedArray_set dest src (Z.of_nat offset) ;;
       copy_channels buffer offset count' (S channel)
         (setChannelData mergedBuffer channel dest'))%js
  end.

(** The copy loop over the decoded buffers. *)
Fixpoint copy_buffers (decodedBuffers : list AudioBuffer) (numberOfChannels0 : nat)
    (offset : nat) (mergedBuffer : AudioBuffer) : result AudioBuffer :=
  match decodedBuffers with
  | [] => Ok mergedBuffer
  | buffer :: rest =>
      (mergedBuffer' <-- copy_channels buffer offset numberOfChannels0 0 mergedBuffer ;;
       copy_buffers rest numberOfChannels0 (offset + length buffer) mergedBuffer')%js
  end.

(** [mergeAudioFiles] up to the merged buffer, before it is encoded. *)
Definition mergeAudioFiles_buffer (files : list File) : M AudioBuffer :=
  if (List.length files <? 2)%nat then
    throw "At least two files are required to merge."
  else
    let totalSteps := (List.length files + 2)%nat in
    (setProgress ("Step 1/" ++ string_of_nat totalSteps ++ ": Decoding audio files...") ;;
     decodedBuffers <- decode_all files (List.length files) 0 [] ;;
     setProgress ("Step " ++ string_of_nat (List.length files + 1) ++ "/"
                  ++ string_of_nat totalSteps ++ ": Validating audio properties...") ;;
     match decodedBuffers with
     | [] => throw "TypeError: firstBuffer is undefined"
     | firstBuffer :: _ =>
         let sampleRate0 := sampleRate firstBuffer in
         let numberOfChannels0 := numberOfChannels firstBuffer in
         totalLength <- lift (validate decodedBuffers sampleRate0 numberOfChannels0 0) ;;
         setProgress ("Step " ++ string_of_nat (List.length files + 2) ++ "/"
                      ++ string_of_nat totalSteps ++ ": Merging audio...") ;;
         mergedBuffer <- createBuffer numberOfChannels0 (Z.of_nat totalLength) sampleRate0 ;;
         lift (copy_buffers decodedBuffers numberOfChannels0 0 mergedBuffer)
     end)%js.

Definition mergeAudioFiles (files : list File) : M Blob :=
  (mergedBuffer <- mergeAudioFiles_buffer files ;;
   lift (encodeMp3 EncoderState lamejs mergedBuffer))%js.
End Pipelines.

(** * Part II: vocabulary of the properties *)

(** ** Chunk sequences *)

(** [ordered_from lo cs]: every chunk is non-empty, starts at or after the
    end of the one before it, and the first starts at or after [lo]. *)
Fixpoint ordered_from (lo : Q) (cs : list SpeechChunk) : Prop :=
  match cs with
  | [] => True
  | c :: cs' => lo <= start c /\ start c < end_ c /\ ordered_from (end_ c) cs'
  end.

Fixpoint last_end (lo : Q) (cs : list SpeechChunk) : Q :=
  match cs with
  | [] => lo
  | c :: cs' => last_end (end_ c) cs'
  end.

(** Equality of chunk sequences as sequences of numbers. *)
Fixpoint same_chunks (a b : list SpeechChunk) : bool :=
  match a, b with
  | [], [] => true
  | x :: a', y :: b' =>
      Qeq_bool (start x) (start y) && Qeq_bool (end_ x) (end_ y) && same_chunks a' b'
  | _, _ => false
  end.

Definition returns_chunks (r : result (list SpeechChunk))
    (expected : list SpeechChunk) : bool :=
  match r with
  | Ok cs => same_chunks cs expected
  | _ => false
  end.

(** A number that is a whole number, as sample offsets are. *)
Definition whole (x : Q) : Prop := inject_Z (Qfloor x) == x.

(** A chunk as a range of samples: whole offsets with [0 <= start < end]. *)
Definition sample_range (c : SpeechChunk) : Prop :=
  whole (start c) /\ whole (end_ c) /\ 0 <= start c /\ start c < end_ c.

(** The sum that the resynthesized length is the ceiling of. *)
Fixpoint total_duration (pauseMultiplier : Q) (chunks : list SpeechChunk) : Q :=
  match chunks with
  | [] => 0
  | c :: rest =>
      (end_ c - start c) * (1 + pauseMultiplier) + total_duration pauseMultiplier rest
  end.

(** ** The scan *)

(** Iterations left when the index moves by at least one per iteration. *)
Definition remaining (cd : Float32Array) (i : Q) : nat :=
  Z.to_nat (Qceiling (of_nat (List.length cd) - i)).

(** The loop invariant behind the shape of the result: the chunks closed so
    far are in order and end at or before the index, and an open speech
    region starts after them, before the index and inside the buffer. *)
Definition scan_state_ok (cd : Float32Array) (i ss : Q)
    (chunks : list SpeechChunk) : Prop :=
  0 <= i /\
  ordered_from 0 chunks /\
  last_end 0 chunks <= i /\
  last_end 0 chunks <= of_nat (List.length cd) /\
  (ss < 0 \/ (last_end 0 chunks <= ss /\ ss < i /\ ss < of_nat (List.length cd))).

Definition scan_final_ok (cd : Float32Array) (ss : Q)
    (chunks : list SpeechChunk) : Prop :=
  ordered_from 0 chunks /\
  last_end 0 chunks <= of_nat (List.length cd) /\
  (ss < 0 \/ (last_end 0 chunks <= ss /\ ss < of_nat (List.length cd))).

(** Sample [k] is above, or below, the threshold. *)
Definition loud_at (cd : Float32Array) (thr : Q) (k : nat) : bool :=
  abs_gt (nth_error cd k) thr.
Definition quiet_at (cd : Float32Array) (thr : Q) (k : nat) : bool :=
  abs_lt (nth_error cd k) thr.



(** ** Merging *)

Definition total_frames (buffers : list AudioBuffer) : nat :=
  list_sum (map length buffers).

(** Channel [c] of every buffer, one after the other. *)
Definition concat_channel (buffers : list AudioBuffer) (c : nat) : Float32Array :=
  List.concat (map (fun b => nth c (channels b) []) buffers).

Definition same_format (first b : AudioBuffer) : Prop :=
  sampleRate b == sampleRate first /\ numberOfChannels b = numberOfChannels first.

(** ** Concrete inputs *)

Definition mono (rate : Q) (d : Float32Array) : AudioBuffer :=
  mkAudioBuffer rate (List.length d) [d].

(** The round-trip scenario: 4 s at 16 kHz, half a second of signal at
    magnitude 0.5 and then silence. *)
Definition scenario_buffer : AudioBuffer :=
  mono 16000 (repeat (1 # 2) 8000 ++ repeat 0 56000).
Definition scenario_settings : Settings := mkSettings (7 # 100) (3 # 10) 1.

(** A short buffer that ends in a pause shorter than the window. *)
Definition trailing_pause_buffer : AudioBuffer := mono 16000 [1 # 2; 0].

(** Speech, one sample of pause, speech. *)
Definition paused_phrase_buffer : AudioBuffer := mono 16000 [1 # 2; 0; 1 # 2].

(** Speech, one sample of silence, 4800 samples exactly at the threshold,
    speech. *)
Definition at_threshold_buffer : AudioBuffer :=
  mono 16000 ([1; 0] ++ repeat (7 # 100) 4800 ++ [1]).

(** Speech, a pause of 5513 samples, speech again, at 22050 Hz; with a
    quarter of a second as the minimum silence the window is 5512.5. *)
Definition two_phrase_buffer : AudioBuffer :=
  mono 22050 ([1 # 2] ++ repeat 0 5513 ++ repeat (1 # 2) 6).
Definition quarter_second : Settings := mkSettings (7 # 100) (1 # 4) 1.


(** Segmentation with the window the specification names: the product of
    sample rate and minimum silence duration rounded to the nearest whole
    number of samples. *)
Definition minSilenceSamples_rounded (audioBuffer : AudioBuffer)
    (settings : Settings) : Q :=
  inject_Z (Math_round (sampleRate audioBuffer * minSilenceDuration settings)).

Definition detectSpeechChunks_rounded (audioBuffer : AudioBuffer)
    (settings : Settings) : result (list SpeechChunk) :=
  match getChannelData audioBuffer 0 with
  | Ok channelData =>
      match scan channelData (silenceThreshold settings)
                 (minSilenceSamples_rounded audioBuffer settings)
                 (S (List.length channelData)) 0 (-1) [] with
      | Some (speechStart, chunks) =>
          Ok (if Qle_bool 0 speechStart
              then chunks ++ [mkChunk speechStart (of_nat (List.length channelData))]
              else chunks)
      | None => OutOfFuel
      end
  | Throw m => Throw m
  | OutOfFuel => OutOfFuel
  end.

(** ** The pipelines *)

Definition decoding_message (count i : nat) (file : File) : string :=
  ("Decoding " ++ string_of_nat (i + 1) ++ "/" ++ string_of_nat count ++ ": "
   ++ name file ++ "...")%string.

(** The progress calls of the decoding loop from file number [i] on. *)
Fixpoint decoding_events (files : list File) (count i : nat) : list event :=
  match files with
  | [] => []
  | file :: rest =>
      Progress (decoding_message count i file) :: decoding_events rest count (S i)
  end.

Definition sample_rate_error (expected : Q) : string :=
  ("Mismatched sample rates. All files must have a sample rate of "
   ++ string_of_number expected ++ " Hz.")%string.

Definition channel_count_error (expected : nat) : string :=
  ("Mismatched channel counts. All files must have "
   ++ string_of_nat expected ++ " channel(s).")%string.

Definition no_speech_error : string :=
  "Could not detect any speech. Please try adjusting the 'Silence Threshold' slider to be lower.".

(** [dest] with [src] written over it at [offset]. *)
Definition splice {A} (dest src : list A) (offset : nat) : list A :=
  firstn offset dest ++ src ++ skipn (offset + List.length src) dest.

(** The merged buffer while it is filled: the buffers [done] are in, the
    rest of each channel is still zero. *)
Definition merge_state (done : list AudioBuffer) (total nch : nat) (rate : Q)
    (merged : AudioBuffer) : Prop :=
  sampleRate merged = rate /\
  length merged = total /\
  numberOfChannels merged = nch /\
  forall c, (c < nch)%nat ->
    nth_error (channels merged) c
    = Some (concat_channel done c ++ repeat 0 (total - total_frames done)).

(** A decoded buffer with [nch] channels. *)
Definition buffer_of (nch : nat) (b : AudioBuffer) : Prop :=
  numberOfChannels b = nch /\
  Forall (fun c => List.length c = length b) (channels b).

(** ** Stand-ins for the decoder and the encoder, for concrete runs *)

(** A toy container: sample rate, channel count, then the samples of every
    channel in 128ths. *)
Definition toy_decoder (file : File) : result AudioBuffer :=
  match arrayBuffer file with
  | rate :: nch :: x :: samples =>
      Ok (mkAudioBuffer (inject_Z rate) (S (List.length samples))
            (repeat (map (fun z => Qred (inject_Z z / 128)) (x :: samples)) (Z.to_nat nch)))
  | _ => Throw "EncodingError: Unable to decode audio data"
  end.

(** An encoder that emits one byte per block and one at the flush. *)
Definition toy_lamejs : Lamejs nat :=
  mkLamejs nat (fun _ _ _ => O) (fun n _ _ => (S n, [Z.of_nat n]))
           (fun n => [Z.of_nat n]).

Definition toy_file (title : string) (rate nch : Z) (x : Z) (count : nat) : File :=
  mkFile title (rate :: nch :: repeat x count).

(** The merge scenario: 1000 and 2000 samples, mono, 16 kHz. *)
Definition fileA : File := toy_file "a.wav" 16000 1 64 1000.
Definition fileB : File := toy_file "b.wav" 16000 1 (-64) 2000.
Definition bufferA : AudioBuffer := mono 16000 (repeat (1 # 2) 1000).
Definition bufferB : AudioBuffer := mono 16000 (repeat (-1 # 2) 2000).

(** The sample-rate scenario: 44.1 kHz and 48 kHz. *)
Definition file441 : File := toy_file "cd.wav" 44100 1 64 4.
Definition file480 : File := toy_file "dat.wav" 48000 1 64 4.

(** A file of silence. *)
Definition fileSilent : File := toy_file "silent.wav" 16000 1 0 8.

(** The progress count of the Merge pipeline in the words of the
    specification: [fileCount + 2] messages for a successful run. *)
Definition merge_progress_as_specified (decodeAudio : File -> result AudioBuffer)
    (EncoderState : Type) (lamejs : option (Lamejs EncoderState))
    (files : list File) : Prop :=
  forall w blob w',
    mergeAudioFiles decodeAudio EncoderState lamejs files w = (Ok blob, w') ->
    List.length (progress_messages w')
    = (List.length (progress_messages w) + (List.length files + 2))%nat.

(** ** The same products in binary64 *)

(** Line 15 and line 60 of the program on the numbers JavaScript has, to
    tell where the rational model is the program's arithmetic and where it
    idealises it. *)
Definition minSilenceSamples_binary64 (sampleRate minSilenceDuration : float) : float :=
  (sampleRate * minSilenceDuration)%float.

Definition chunk_length_binary64 (chunkDuration pauseMultiplier : float) : float :=
  (chunkDuration * (1 + pauseMultiplier))%float.

(** * Part II, continued: further vocabulary *)

(** ** Chunk boundaries *)

(** [x] is the position of a sample above, or below, the threshold. *)
Definition onset_at (cd : Float32Array) (thr : Q) (x : Q) : Prop :=
  exists n, x == of_nat n /\ loud_at cd thr n = true.
Definition pause_at (cd : Float32Array) (thr : Q) (x : Q) : Prop :=
  exists n, x == of_nat n /\ quiet_at cd thr n = true.

(** A chunk that starts at a sample above the threshold and ends at a sample
    below it or at the end of the channel. *)
Definition chunk_boundaries (cd : Float32Array) (thr : Q) (c : SpeechChunk) : Prop :=
  onset_at cd thr (start c) /\
  (pause_at cd thr (end_ c) \/ end_ c = of_nat (List.length cd)).



(** ** Resynthesis, as lists *)

(** The samples of a chunk in a channel, as [createPaddedAudio] reads them. *)
Definition chunk_samples (src : Float32Array) (c : SpeechChunk) : Float32Array :=
  subarray src (start c) (end_ c).

(** The number of samples [a.subarray(b, e)] has when [a] has [n]. *)
Definition subarray_length (n : nat) (b e : Q) : nat :=
  Nat.min (Z.to_nat (relative_index (Z.of_nat n) e - relative_index (Z.of_nat n) b))
          (n - Z.to_nat (relative_index (Z.of_nat n) b)).

(** The runs of zeros in front of each chunk, for channels of [n] samples:
    from the end of what is written to the rounded position of the chunk. *)
Fixpoint gaps_of (n : nat) (pm : Q) (chunks : list SpeechChunk) (position : Q)
    (written : nat) : list nat :=
  match chunks with
  | [] => []
  | c :: rest =>
      let here := Z.to_nat (Math_round position) in
      (here - written)%nat ::
      gaps_of n pm rest
        (position + (end_ c - start c) + (end_ c - start c) * pm)
        (here + subarray_length n (start c) (end_ c))
  end.

(** Zeros, data, zeros, data, ... *)
Definition interleave (gaps : list nat) (datas : list Float32Array) : Float32Array :=
  List.concat (map (fun gd => repeat 0 (fst gd) ++ snd gd) (combine gaps datas)).

(** A channel after resynthesis: the interleaving, then zeros up to [N]. *)
Definition rendered (N : nat) (pm : Q) (chunks : list SpeechChunk)
    (src : Float32Array) : Float32Array :=
  let body := interleave (gaps_of (List.length src) pm chunks 0 0)
                         (map (chunk_samples src) chunks) in
  body ++ repeat 0 (N - List.length body).

(** A chunk followed by its pause, for a whole multiplier [k]. *)
Definition phrase_with_pause (k : nat) (src : Float32Array) (c : SpeechChunk)
  : Float32Array :=
  chunk_samples src c ++ repeat 0 (k * List.length (chunk_samples src c)).

(** A chunk as a range of samples of a channel of [n] samples. *)
Definition sample_range_in (n : nat) (c : SpeechChunk) : Prop :=
  sample_range c /\ end_ c <= of_nat n.

(** The number of samples in a chunk, and the length of the resynthesis for
    a whole multiplier [k]. *)
Definition chunk_width (c : SpeechChunk) : nat :=
  Z.to_nat (Qfloor (end_ c) - Qfloor (start c)).

Definition padded_total (k : nat) (chunks : list SpeechChunk) : nat :=
  list_sum (map (fun c => ((1 + k) * chunk_width c)%nat) chunks).

(** ** Encoding, as lists *)

(** The number of blocks for [n] samples: [n / 1152], rounded up. *)
Definition block_count (n : nat) : nat :=
  ((n + (sampleBlockSize - 1)) / sampleBlockSize)%nat.

(** The [count] pairs of blocks from sample [i] on. *)
Fixpoint block_pairs_from (count i : nat) (left : Int16Array)
    (right : option Int16Array) : list (Int16Array * option Int16Array) :=
  match count with
  | O => []
  | S count' =>
      (firstn sampleBlockSize (skipn i left),
       option_map (fun r => firstn sampleBlockSize (skipn i r)) right)
      :: block_pairs_from count' (i + sampleBlockSize) left right
  end.

Definition block_pairs (left : Int16Array) (right : option Int16Array)
  : list (Int16Array * option Int16Array) :=
  block_pairs_from (block_count (List.length left)) 0 left right.

(** One call of the block encoder and the bookkeeping around it. *)
Definition feed {EncoderState} (lib : Lamejs EncoderState)
    (acc : EncoderState * list Int8Array)
    (block : Int16Array * option Int16Array) : EncoderState * list Int8Array :=
  let (mp3encoder', mp3buf) := encodeBuffer lib (fst acc) (fst block) (snd block) in
  (mp3encoder', push_nonempty (snd acc) mp3buf).

(** The right-hand blocks of a list of pairs, when there are any. *)
Definition right_blocks (pairs : list (Int16Array * option Int16Array))
  : list Int16Array :=
  flat_map (fun p => match snd p with Some r => [r] | None => [] end) pairs.

(** The channels [encodeMp3] converts: the first, and the second if any. *)
Definition encoded_right (rest : list Float32Array) : option Int16Array :=
  match rest with
  | [] => None
  | channel1 :: _ => Some (convertBuffer channel1)
  end.

(** The blob [encodeMp3] builds from the final encoder state and fragments. *)
Definition finish {EncoderState} (lib : Lamejs EncoderState)
    (acc : EncoderState * list Int8Array) : Blob :=
  mkBlob (push_nonempty (snd acc) (flush lib (fst acc))) "audio/mpeg".

(** ** The pipelines, continued *)

(** Speech has been found: a chunk is closed or a region is open. *)
Definition started (ss : Q) (chunks : list SpeechChunk) : Prop :=
  chunks <> [] \/ 0 <= ss.

Definition phrases_message (n : nat) : string :=
  ("Step 3/4: Reconstructing audio with pauses... (found "
   ++ string_of_nat n ++ " phrases)")%string.


(** The log of a Pace run that reaches the encoder. *)
Definition pace_events (b : AudioBuffer) (chunks : list SpeechChunk) (s : Settings)
  : list event :=
  [Progress "Step 1/4: Decoding audio...";
   Progress "Step 2/4: Analyzing for speech...";
   Progress (phrases_message (List.length chunks));
   CreateBuffer (numberOfChannels b)
     (Math_ceil (total_duration (pauseMultiplier s) chunks)) (sampleRate b);
   Progress "Step 4/4: Encoding final MP3 file..."].

Definition merge_step (k count : nat) (what : string) : string :=
  ("Step " ++ string_of_nat k ++ "/" ++ string_of_nat (count + 2) ++ ": " ++ what)%string.

(** The log of [mergeAudioFiles] up to the start of the decoding loop. *)
Definition merge_start (count : nat) : list event :=
  [Progress ("Step 1/" ++ string_of_nat (count + 2) ++ ": Decoding audio files...")].

(** The log of a Merge run that reaches the encoder. *)
Definition merge_events (files : list File) (first : AudioBuffer) (total : nat)
  : list event :=
  merge_start (List.length files)
  ++ decoding_events files (List.length files) 0
  ++ [Progress (merge_step (List.length files + 1) (List.length files)
                  "Validating audio properties...");
      Progress (merge_step (List.length files + 2) (List.length files)
                  "Merging audio...");
      CreateBuffer (numberOfChannels first) (Z.of_nat total) (sampleRate first)].

(** The buffers one after the other, in the format of [first]. *)
Definition merged_buffer (first : AudioBuffer) (buffers : list AudioBuffer)
  : AudioBuffer :=
  mkAudioBuffer (sampleRate first) (total_frames buffers)
    (map (concat_channel buffers) (seq 0 (numberOfChannels first))).

(** The log of a Merge run up to the validation loop. *)
Definition validation_events (files : list File) : list event :=
  merge_start (List.length files)
  ++ decoding_events files (List.length files) 0
  ++ [Progress (merge_step (List.length files + 1) (List.length files)
                  "Validating audio properties...")].

(** A file that the toy decoder rejects. *)
Definition fileBroken : File := mkFile "broken.mp3" [16000%Z].

(** A stereo file at 44.1 kHz. *)
Definition fileStereo441 : File := toy_file "stereo.wav" 44100 2 64 4.

(** * Part I, continued: the handlers of the user interface *)

(** ** Array and string methods *)

(** [a.filter((_, index) => keep(index))], from position [index] on. *)
Fixpoint filter_index {A} (keep : nat -> bool) (index : nat) (a : list A) : list A :=
  match a with
  | [] => []
  | x :: rest =>
      if keep index then x :: filter_index keep (S index) rest
      else filter_index keep (S index) rest
  end.

(** [a.splice(start, 1)]: the array that is left, and the removed elements. *)
Definition splice_delete {A} (a : list A) (start : nat) : list A * list A :=
  (firstn start a ++ skipn (S start) a, firstn 1 (skipn start a)).

(** [a.splice(start, 0, item)]. *)
Definition splice_insert {A} (a : list A) (start : nat) (item : A) : list A :=
  firstn start a ++ item :: skipn start a.

(** [s.split(separator)] for a separator of one character. *)
Fixpoint split (separator : ascii) (s : string) : list string :=
  match s with
  | EmptyString => [EmptyString]
  | String c rest =>
      if Ascii.eqb c separator then EmptyString :: split separator rest
      else match split separator rest with
           | [] => [String c EmptyString]
           | head :: tail => String c head :: tail
           end
  end.

(** [a.slice(0, -1)]. *)
Definition slice_0_minus1 {A} (a : list A) : list A := removelast a.

(** [a.join(separator)]. *)
Definition join (separator : string) (a : list string) : string :=
  String.concat separator a.

(** ** Merger.tsx: the list of files *)

(** The updater of [handleRemoveFile]. *)
Definition handleRemoveFile {A} (indexToRemove : nat) (prevFiles : list A) : list A :=
  filter_index (fun index => negb (index =? indexToRemove)%nat) 0 prevFiles.

(** [handleDragSort]: the new list of files, given the two refs.  An entry
    [None] is [undefined]: what [splice(dragItem, 1)[0]] is when nothing was
    removed.  Without both refs the list stays as it is. *)
Definition handleDragSort {A} (files : list A) (dragItem dragOverItem : option nat)
  : list (option A) :=
  match dragItem, dragOverItem with
  | Some dragItem_current, Some dragOverItem_current =>
      let newFiles := map Some files in
      let (newFiles', removed) := splice_delete newFiles dragItem_current in
      let draggedItemContent := nth 0 removed None in
      splice_insert newFiles' dragOverItem_current draggedItemContent
  | _, _ => map Some files
  end.



Section FileTypes.
(** The [type] property of a file. *)
Variable type : File -> string.


End FileTypes.

(** ** App.tsx: the name of the download *)

Definition originalName (name : string) : string :=
  join "." (slice_0_minus1 (split "." name)).

Definition processedFileName (name : string) : string :=
  (originalName name ++ "_paced.wav")%string.

(** * Part II, continued: vocabulary for the handlers *)

(** No full stop in [s]. *)
Fixpoint dotless (s : string) : Prop :=
  match s with
  | EmptyString => True
  | String c rest => c <> "."%char /\ dotless rest
  end.

(** * Part III: properties *)

(** ** Arithmetic on positions *)

Lemma Qltb_lt a b : Qltb a b = true <-> a < b.
Proof.
  unfold Qltb. rewrite negb_true_iff, <- not_true_iff_false, Qle_bool_iff.
  split; [apply Qnot_le_lt | apply Qlt_not_le].
Qed.

Lemma Qltb_ge a b : Qltb a b = false <-> b <= a.
Proof.
  unfold Qltb. rewrite negb_false_iff. apply Qle_bool_iff.
Qed.

Lemma of_nat_succ n : of_nat n + 1 = of_nat (S n).
Proof.
  unfold of_nat, inject_Z, Qplus; simpl Qnum; simpl Qden.
  rewrite !Z.mul_1_r, Nat2Z.inj_succ. reflexivity.
Qed.

Lemma inject_Z_pred z : inject_Z (z - 1) == inject_Z z - 1.
Proof. unfold Z.sub. rewrite inject_Z_plus. reflexivity. Qed.

Lemma inject_Z_succ z : inject_Z (z + 1) == inject_Z z + 1.
Proof. rewrite inject_Z_plus. reflexivity. Qed.

Lemma of_nat_le n m : of_nat n <= of_nat m <-> (n <= m)%nat.
Proof. unfold of_nat. rewrite <- Zle_Qle. lia. Qed.

Lemma of_nat_lt n m : of_nat n < of_nat m <-> (n < m)%nat.
Proof. unfold of_nat. rewrite <- Zlt_Qlt. lia. Qed.

Lemma of_nat_nonneg n : 0 <= of_nat n.
Proof. change 0 with (of_nat 0). apply of_nat_le. lia. Qed.

Lemma as_index_of_nat n : as_index (of_nat n) = Some n.
Proof.
  unfold as_index, of_nat. rewrite Qfloor_Z.
  rewrite (proj2 (Qeq_bool_iff _ _) (Qeq_refl _)).
  rewrite (proj2 (Z.leb_le _ _)) by lia.
  simpl. now rewrite Nat2Z.id.
Qed.

Lemma as_index_Some i n : as_index i = Some n -> i == of_nat n.
Proof.
  unfold as_index. destruct (Qeq_bool _ _) eqn:E; [|discriminate].
  destruct (0 <=? Qfloor i)%Z eqn:P; [|discriminate]. simpl.
  intros [= <-]. apply Qeq_bool_iff in E. apply Z.leb_le in P.
  unfold of_nat. now rewrite Z2Nat.id.
Qed.

Lemma get_of_nat a n : get a (of_nat n) = nth_error a n.
Proof. unfold get. now rewrite as_index_of_nat. Qed.

Lemma get_Some a i x :
  get a i = Some x -> exists n, i == of_nat n /\ nth_error a n = Some x.
Proof.
  unfold get. destruct (as_index i) as [n|] eqn:E; [|discriminate].
  intros H. exists n. split; [now apply as_index_Some | exact H].
Qed.

(** A sample is never both above and below the threshold. *)
Lemma abs_gt_lt_excl s t : abs_gt s t = true -> abs_lt s t = false.
Proof.
  destruct s as [x|]; simpl; [|reflexivity].
  rewrite Qltb_lt, Qltb_ge. apply Qlt_le_weak.
Qed.

Lemma abs_lt_gt_excl s t : abs_lt s t = true -> abs_gt s t = false.
Proof.
  destruct s as [x|]; simpl; [|reflexivity].
  rewrite Qltb_lt, Qltb_ge. apply Qlt_le_weak.
Qed.

Lemma abs_gt_Some s t : abs_gt s t = true -> exists x, s = Some x.
Proof. destruct s; [eauto | discriminate]. Qed.

Lemma abs_lt_Some s t : abs_lt s t = true -> exists x, s = Some x.
Proof. destruct s; [eauto | discriminate]. Qed.

Lemma neg_ltb_0 ss : ss < 0 -> Qltb ss 0 = true /\ Qle_bool 0 ss = false.
Proof.
  intros H. split; [now apply Qltb_lt|].
  apply not_true_iff_false. rewrite Qle_bool_iff. lra.
Qed.

Lemma nonneg_ltb_0 ss : 0 <= ss -> Qltb ss 0 = false /\ Qle_bool 0 ss = true.
Proof. intros H. split; [now apply Qltb_ge | now apply Qle_bool_iff]. Qed.

(** ** Chunk sequences in ascending order *)

Lemma ordered_from_snoc cs : forall lo c,
  ordered_from lo cs -> last_end lo cs <= start c -> start c < end_ c ->
  ordered_from lo (cs ++ [c]).
Proof.
  induction cs as [|c0 cs IH]; simpl; intros lo c H Hle Hlt.
  - auto.
  - destruct H as (H1 & H2 & H3). auto.
Qed.

Lemma last_end_snoc cs : forall lo c, last_end lo (cs ++ [c]) = end_ c.
Proof. induction cs as [|c0 cs IH]; simpl; intros; [reflexivity | apply IH]. Qed.

Lemma ordered_from_last cs : forall lo, ordered_from lo cs -> lo <= last_end lo cs.
Proof.
  induction cs as [|c cs IH]; simpl; intros lo H.
  - apply Qle_refl.
  - destruct H as (H1 & H2 & H3). specialize (IH _ H3). lra.
Qed.

Lemma ordered_from_bounds cs : forall lo c,
  ordered_from lo cs -> In c cs ->
  lo <= start c /\ start c < end_ c /\ end_ c <= last_end lo cs.
Proof.
  induction cs as [|c0 cs IH]; simpl; intros lo c H Hin; [contradiction|].
  destruct H as (H1 & H2 & H3). destruct Hin as [<-|Hin].
  - repeat split; auto. now apply ordered_from_last.
  - destruct (IH _ _ H3 Hin) as (A & B & C). repeat split; auto. lra.
Qed.

Lemma ordered_from_consecutive cs : forall lo k c1 c2,
  ordered_from lo cs ->
  nth_error cs k = Some c1 -> nth_error cs (S k) = Some c2 ->
  end_ c1 <= start c2.
Proof.
  induction cs as [|c0 cs IH]; intros lo k c1 c2 H H1 H2.
  - destruct k; discriminate.
  - destruct H as (A & B & C). destruct k as [|k].
    + simpl in H1. injection H1 as <-. destruct cs as [|c cs]; [discriminate|].
      simpl in H2. injection H2 as <-. apply C.
    + simpl in H1. exact (IH _ _ _ _ C H1 H2).
Qed.

(** ** The two loops of the segmenter *)

Section SegmenterFacts.
Variable cd : Float32Array.
Variables thr m : Q.

Local Abbreviation len := (of_nat (List.length cd)).
Local Abbreviation lookahead' := (lookahead cd thr m).
Local Abbreviation scan' := (scan cd thr m).

Lemma remaining_step i i' :
  i < len -> i + 1 <= i' -> (S (remaining cd i') <= remaining cd i)%nat.
Proof.
  intros Hlt Hle. unfold remaining.
  assert (A : (0 < Qceiling (len - i))%Z).
  { rewrite Zlt_Qlt. apply Qlt_le_trans with (len - i); [|apply Qle_ceiling].
    change (inject_Z 0) with 0. lra. }
  assert (B : (Qceiling (len - i') < Qceiling (len - i))%Z).
  { rewrite Zlt_Qlt.
    assert (C := Qceiling_lt (len - i')). assert (D := Qle_ceiling (len - i)).
    rewrite inject_Z_pred in C. lra. }
  lia.
Qed.

Lemma remaining_le_length i : 0 <= i -> (remaining cd i <= List.length cd)%nat.
Proof.
  intros Hi. unfold remaining.
  assert (A : (Qceiling (len - i) <= Z.of_nat (List.length cd))%Z).
  { rewrite <- (Qceiling_Z (Z.of_nat (List.length cd))).
    apply Qceiling_resp_le. unfold of_nat. lra. }
  lia.
Qed.

Lemma scan_S fuel i ss chunks :
  scan' (S fuel) i ss chunks =
  if Qltb i len then
    let ss1 := if abs_gt (get cd i) thr && Qltb ss 0 then i else ss in
    if abs_lt (get cd i) thr && Qle_bool 0 ss1 then
      match lookahead' (S (List.length cd)) i i with
      | None => None
      | Some (Some j) => scan' fuel (j + 1) ss1 chunks
      | Some None => scan' fuel (i + m + 1) (-1) (chunks ++ [mkChunk ss1 i])
      end
    else scan' fuel (i + 1) ss1 chunks
  else Some (ss, chunks).
Proof. reflexivity. Qed.

Lemma lookahead_total fuel : forall i j,
  (remaining cd j < fuel)%nat -> lookahead' fuel i j <> None.
Proof.
  induction fuel as [|fuel IH]; intros i j Hf; [lia|].
  simpl. destruct (Qltb j (i + m) && Qltb j len) eqn:E; [|discriminate].
  destruct (abs_gt _ _); [discriminate|].
  apply andb_true_iff in E. destruct E as [_ E]. apply Qltb_lt in E.
  apply IH. assert (X := remaining_step j (j + 1) E (Qle_refl _)). lia.
Qed.

Lemma lookahead_found fuel : forall i j k,
  lookahead' fuel i j = Some (Some k) ->
  j <= k /\ k < i + m /\ k < len /\ abs_gt (get cd k) thr = true.
Proof.
  induction fuel as [|fuel IH]; intros i j k; simpl; [discriminate|].
  destruct (Qltb j (i + m) && Qltb j len) eqn:E; [|discriminate].
  apply andb_true_iff in E. destruct E as [E1 E2].
  apply Qltb_lt in E1, E2.
  destruct (abs_gt (get cd j) thr) eqn:G.
  - intros [= <-]. repeat split; auto. apply Qle_refl.
  - intros H. destruct (IH _ _ _ H) as (A & B & C & D).
    repeat split; auto. lra.
Qed.

(** A window without any sample above the threshold runs to its end. *)
Lemma lookahead_quiet fuel : forall i j,
  (forall q, j <= q -> abs_gt (get cd q) thr = false) ->
  (remaining cd j < fuel)%nat ->
  lookahead' fuel i j = Some None.
Proof.
  induction fuel as [|fuel IH]; intros i j Hq Hf; [lia|].
  simpl. destruct (Qltb j (i + m) && Qltb j len) eqn:E; [|reflexivity].
  apply andb_true_iff in E. destruct E as [_ E]. apply Qltb_lt in E.
  rewrite (Hq j (Qle_refl _)). apply IH.
  - intros q Hle. apply Hq. lra.
  - assert (X := remaining_step j (j + 1) E (Qle_refl _)). lia.
Qed.

(** Outside speech, with no sample above the threshold ahead, the scan
    runs to the end of the buffer and changes nothing. *)
Lemma scan_idle fuel : forall i ss chunks,
  ss < 0 ->
  (forall q, i <= q -> abs_gt (get cd q) thr = false) ->
  (remaining cd i < fuel)%nat ->
  scan' fuel i ss chunks = Some (ss, chunks).
Proof.
  induction fuel as [|fuel IH]; intros i ss chunks Hss Hq Hf; [lia|].
  rewrite scan_S. destruct (Qltb i len) eqn:E; [|reflexivity].
  apply Qltb_lt in E. cbv zeta.
  rewrite (Hq i (Qle_refl _)). simpl.
  destruct (neg_ltb_0 _ Hss) as [_ ->]. rewrite andb_false_r. apply IH; auto.
  - intros q Hle. apply Hq. lra.
  - assert (X := remaining_step i (i + 1) E (Qle_refl _)). lia.
Qed.

Lemma scan_invariant (Hm : 0 <= m) fuel : forall i ss chunks,
  scan_state_ok cd i ss chunks ->
  (remaining cd i < fuel)%nat ->
  exists ss' chunks',
    scan' fuel i ss chunks = Some (ss', chunks') /\ scan_final_ok cd ss' chunks'.
Proof.
  induction fuel as [|fuel IH]; intros i ss chunks Hok Hf; [lia|].
  destruct Hok as (Hi & Hord & Hlast & Hlen & Hss).
  rewrite scan_S. destruct (Qltb i len) eqn:E.
  2:{ exists ss, chunks. split; [reflexivity|]. repeat split; auto.
      destruct Hss as [?|(?&?&?)]; [now left | right; now split]. }
  apply Qltb_lt in E. cbv zeta.
  set (ss1 := if abs_gt (get cd i) thr && Qltb ss 0 then i else ss).
  assert (Hstep : forall i', i + 1 <= i' -> (remaining cd i' < fuel)%nat).
  { intros i' Hle. assert (X := remaining_step i i' E Hle). lia. }
  assert (Hss1 : ss1 < 0 \/ (last_end 0 chunks <= ss1 /\ ss1 <= i /\ ss1 < len)).
  { unfold ss1. destruct (abs_gt (get cd i) thr && Qltb ss 0).
    - right. repeat split; auto. apply Qle_refl.
    - destruct Hss as [?|(?&?&?)]; [now left | right; repeat split; auto; lra]. }
  destruct (abs_lt (get cd i) thr && Qle_bool 0 ss1) eqn:C.
  - apply andb_true_iff in C. destruct C as [Cq Cs].
    apply Qle_bool_iff in Cs.
    assert (Hlt1 : last_end 0 chunks <= ss1 /\ ss1 < i).
    { unfold ss1 in *. destruct (abs_gt (get cd i) thr) eqn:G.
      - apply abs_gt_lt_excl in G. congruence.
      - simpl in *. destruct Hss as [?|(?&?&?)]; [lra | now split]. }
    destruct Hlt1 as [Hl1 Hl2].
    destruct (lookahead' (S (List.length cd)) i i) as [[j|]|] eqn:L.
    + destruct (lookahead_found _ _ _ _ L) as (A & B & D & _).
      apply IH; [|apply Hstep; lra].
      split; [lra|]. split; [assumption|]. split; [lra|]. split; [assumption|].
      right. repeat split; auto; lra.
    + apply IH; [|apply Hstep; lra].
      repeat split; try lra.
      * apply ordered_from_snoc; auto.
      * rewrite last_end_snoc. simpl. lra.
      * rewrite last_end_snoc. simpl. lra.
    + exfalso. revert L. apply lookahead_total.
      assert (X := remaining_le_length i Hi). lia.
  - apply IH; [|apply Hstep; apply Qle_refl].
    split; [lra|]. split; [assumption|]. split; [lra|]. split; [assumption|].
    destruct Hss1 as [?|(?&?&?)]; [now left | right; repeat split; auto; lra].
Qed.

(** With a window that is not negative the scan ends within one unit of
    fuel per sample, plus one for the exit test. *)
Lemma scan_fuel_enough (Hm : 0 <= m) :
  exists ss chunks,
    scan' (S (List.length cd)) 0 (-1) [] = Some (ss, chunks) /\
    scan_final_ok cd ss chunks.
Proof.
  apply (scan_invariant Hm).
  - repeat split; simpl; try apply Qle_refl; try apply of_nat_nonneg.
    left. reflexivity.
  - assert (X := remaining_le_length 0 (Qle_refl 0)). lia.
Qed.

(** More fuel never changes a result. *)
Lemma scan_fuel_mono fuel : forall i ss chunks r,
  scan' fuel i ss chunks = Some r ->
  forall extra, scan' (fuel + extra) i ss chunks = Some r.
Proof.
  induction fuel as [|fuel IH]; intros i ss chunks r H extra; [discriminate|].
  change (S fuel + extra)%nat with (S (fuel + extra)).
  rewrite scan_S in *. destruct (Qltb i len); [|exact H]. cbv zeta in *.
  destruct (abs_lt (get cd i) thr && Qle_bool 0 _).
  - destruct (lookahead' (S (List.length cd)) i i) as [[j|]|];
      [apply IH; exact H | apply IH; exact H | discriminate].
  - apply IH. exact H.
Qed.

(** *** Paths at whole positions *)

Local Abbreviation loud k := (loud_at cd thr k).
Local Abbreviation quiet k := (quiet_at cd thr k).

Lemma loud_at_lt k : loud k = true -> (k < List.length cd)%nat.
Proof.
  unfold loud_at. intros H. destruct (abs_gt_Some _ _ H) as [x Hx].
  apply nth_error_Some. congruence.
Qed.

Lemma quiet_at_lt k : quiet k = true -> (k < List.length cd)%nat.
Proof.
  unfold quiet_at. intros H. destruct (abs_lt_Some _ _ H) as [x Hx].
  apply nth_error_Some. congruence.
Qed.

Lemma not_loud_from n :
  (forall k, (n <= k)%nat -> loud k = false) ->
  forall q, of_nat n <= q -> abs_gt (get cd q) thr = false.
Proof.
  intros H q Hq. destruct (get cd q) as [x|] eqn:G; [|reflexivity].
  destruct (get_Some _ _ _ G) as (k & Hk & Hx).
  rewrite <- Hx. apply H. apply of_nat_le. now rewrite <- Hk.
Qed.

Lemma ltb_of_nat_len n :
  (n < List.length cd)%nat -> Qltb (of_nat n) len = true.
Proof. intros H. apply Qltb_lt. now apply of_nat_lt. Qed.

(** Outside speech, a sample that is not above the threshold is passed. *)
Lemma scan_step_idle fuel n ss chunks :
  ss < 0 -> (n < List.length cd)%nat -> loud n = false ->
  scan' (S fuel) (of_nat n) ss chunks = scan' fuel (of_nat (S n)) ss chunks.
Proof.
  intros Hss Hn Hl. rewrite scan_S, ltb_of_nat_len by assumption. cbv zeta.
  rewrite get_of_nat. unfold loud_at in Hl. rewrite Hl. simpl.
  destruct (neg_ltb_0 _ Hss) as [_ ->]. rewrite andb_false_r.
  now rewrite of_nat_succ.
Qed.

(** Outside speech, a sample above the threshold opens a region. *)
Lemma scan_step_onset fuel n ss chunks :
  ss < 0 -> loud n = true ->
  scan' (S fuel) (of_nat n) ss chunks =
  scan' fuel (of_nat (S n)) (of_nat n) chunks.
Proof.
  intros Hss Hl. rewrite scan_S, ltb_of_nat_len by now apply loud_at_lt.
  cbv zeta. rewrite get_of_nat. unfold loud_at in Hl. rewrite Hl.
  destruct (neg_ltb_0 _ Hss) as [-> _]. simpl.
  rewrite (abs_gt_lt_excl _ _ Hl). simpl. now rewrite of_nat_succ.
Qed.

(** Inside speech, a sample that is not below the threshold is passed. *)
Lemma scan_step_speech fuel n ss chunks :
  0 <= ss -> (n < List.length cd)%nat -> quiet n = false ->
  scan' (S fuel) (of_nat n) ss chunks = scan' fuel (of_nat (S n)) ss chunks.
Proof.
  intros Hss Hn Hq. rewrite scan_S, ltb_of_nat_len by assumption. cbv zeta.
  rewrite get_of_nat. unfold quiet_at in Hq. rewrite Hq.
  destruct (nonneg_ltb_0 _ Hss) as [-> _]. rewrite andb_false_r. simpl.
  now rewrite of_nat_succ.
Qed.

(** Inside speech, a sample below the threshold starts the lookahead. *)
Lemma scan_step_pause fuel n ss chunks :
  0 <= ss -> quiet n = true ->
  scan' (S fuel) (of_nat n) ss chunks =
  match lookahead' (S (List.length cd)) (of_nat n) (of_nat n) with
  | None => None
  | Some (Some j) => scan' fuel (j + 1) ss chunks
  | Some None =>
      scan' fuel (of_nat n + m + 1) (-1) (chunks ++ [mkChunk ss (of_nat n)])
  end.
Proof.
  intros Hss Hq. rewrite scan_S, ltb_of_nat_len by now apply quiet_at_lt.
  cbv zeta. rewrite get_of_nat. unfold quiet_at in Hq. rewrite Hq.
  destruct (nonneg_ltb_0 _ Hss) as [A B]. rewrite A, andb_false_r. cbv iota.
  rewrite B. reflexivity.
Qed.


Lemma scan_run_speech d : forall fuel n ss chunks,
  0 <= ss -> (n + d <= List.length cd)%nat ->
  (forall k, (n <= k < n + d)%nat -> quiet k = false) ->
  scan' (d + fuel) (of_nat n) ss chunks = scan' fuel (of_nat (n + d)) ss chunks.
Proof.
  induction d as [|d IH]; intros fuel n ss chunks Hss Hn Hl.
  - now rewrite Nat.add_0_r.
  - change (S d + fuel)%nat with (S (d + fuel)).
    rewrite scan_step_speech; [|assumption|lia|apply Hl; lia].
    rewrite IH; [|assumption|lia|intros; apply Hl; lia].
    f_equal. f_equal. lia.
Qed.


End SegmenterFacts.

(** ** The segmenter as a whole *)

Lemma of_nat_add a b : of_nat (a + b) == of_nat a + of_nat b.
Proof. unfold of_nat. now rewrite Nat2Z.inj_add, inject_Z_plus. Qed.

Lemma remaining_of_nat cd n : remaining cd (of_nat n) = (List.length cd - n)%nat.
Proof.
  unfold remaining.
  destruct (Nat.le_gt_cases n (List.length cd)) as [H|H].
  - replace (List.length cd) with (n + (List.length cd - n))%nat at 1 by lia.
    assert (E : of_nat (n + (List.length cd - n)) - of_nat n
                == inject_Z (Z.of_nat (List.length cd - n))).
    { rewrite of_nat_add. unfold of_nat. ring. }
    rewrite E, Qceiling_Z. apply Nat2Z.id.
  - assert (A : (Qceiling (of_nat (List.length cd) - of_nat n) <= 0)%Z).
    { change 0%Z with (Qceiling (inject_Z 0)). apply Qceiling_resp_le.
      apply of_nat_lt in H. change (inject_Z 0) with 0. lra. }
    lia.
Qed.

Lemma detectSpeechChunks_unfold b s cd rest :
  channels b = cd :: rest ->
  detectSpeechChunks b s =
  match scan cd (silenceThreshold s) (minSilenceSamples b s)
             (S (List.length cd)) 0 (-1) [] with
  | Some (ss, chunks) =>
      Ok (if Qle_bool 0 ss
          then chunks ++ [mkChunk ss (of_nat (List.length cd))]
          else chunks)
  | None => OutOfFuel
  end.
Proof.
  intros H. unfold detectSpeechChunks, detectSpeechChunks_fuel, getChannelData.
  rewrite H. reflexivity.
Qed.

(** The fuel of [detectSpeechChunks] is not a limit: whatever it returns,
    any larger amount of fuel returns too. *)
Lemma detectSpeechChunks_fuel_stable b s chunks :
  detectSpeechChunks b s = Ok chunks ->
  forall fuel cd rest,
    channels b = cd :: rest -> (S (List.length cd) <= fuel)%nat ->
    detectSpeechChunks_fuel fuel b s = Ok chunks.
Proof.
  intros H fuel cd rest Hch Hf.
  rewrite (detectSpeechChunks_unfold b s cd rest Hch) in H.
  unfold detectSpeechChunks_fuel, getChannelData. rewrite Hch. cbn [nth_error].
  destruct (scan cd (silenceThreshold s) (minSilenceSamples b s)
              (S (List.length cd)) 0 (-1) []) as [r|] eqn:E; [|discriminate].
  replace fuel with (S (List.length cd) + (fuel - S (List.length cd)))%nat by lia.
  now rewrite (scan_fuel_mono _ _ _ _ _ _ _ _ E).
Qed.

Lemma wf_first_channel b :
  wf_AudioBuffer b ->
  exists cd rest, channels b = cd :: rest /\ List.length cd = length b.
Proof.
  intros (Hn & _ & Hall). unfold numberOfChannels in Hn.
  destruct (channels b) as [|cd rest] eqn:E; [simpl in Hn; lia|].
  exists cd, rest. split; [reflexivity|]. now inversion Hall.
Qed.

Lemma minSilenceSamples_nonneg b s :
  0 <= sampleRate b -> 0 <= minSilenceDuration s -> 0 <= minSilenceSamples b s.
Proof. intros. unfold minSilenceSamples. now apply Qmult_le_0_compat. Qed.

(** C2.  For a well-formed buffer and a minimum silence duration that is not
    negative, segmentation returns a chunk sequence in which every chunk has
    [0 <= start < end <= length] and every chunk starts at or after the end
    of the one before it (and so strictly after its start). *)
Theorem detectSpeechChunks_ordered (b : AudioBuffer) (s : Settings) :
  wf_AudioBuffer b ->
  0 <= sampleRate b ->
  0 <= minSilenceDuration s ->
  exists chunks,
    detectSpeechChunks b s = Ok chunks /\
    (forall c, In c chunks ->
       0 <= start c /\ start c < end_ c /\ end_ c <= of_nat (length b)) /\
    (forall k c1 c2,
       nth_error chunks k = Some c1 -> nth_error chunks (S k) = Some c2 ->
       end_ c1 <= start c2 /\ start c1 < start c2).
Proof.
  intros Hwf Hr Hd.
  destruct (wf_first_channel b Hwf) as (cd & rest & Hch & Hlen).
  rewrite (detectSpeechChunks_unfold b s cd rest Hch).
  destruct (scan_fuel_enough cd (silenceThreshold s) (minSilenceSamples b s)
              (minSilenceSamples_nonneg b s Hr Hd))
    as (ss & chunks & -> & Hord & Hlast & Hss).
  set (out := if Qle_bool 0 ss
              then chunks ++ [mkChunk ss (of_nat (List.length cd))] else chunks).
  assert (Hout : ordered_from 0 out /\ last_end 0 out <= of_nat (length b)).
  { unfold out. rewrite <- Hlen. destruct (Qle_bool 0 ss) eqn:E.
    - apply Qle_bool_iff in E. destruct Hss as [Hneg|(H1 & H2)]; [lra|].
      split; [apply ordered_from_snoc; assumption|].
      rewrite last_end_snoc. apply Qle_refl.
    - now split. }
  destruct Hout as [Ho Hl]. exists out. split; [reflexivity|]. split.
  - intros c Hin. destruct (ordered_from_bounds out 0 c Ho Hin) as (A & B & C).
    repeat split; auto. lra.
  - intros k c1 c2 H1 H2.
    assert (A := ordered_from_consecutive out 0 k c1 c2 Ho H1 H2).
    split; [exact A|].
    destruct (ordered_from_bounds out 0 c1 Ho (nth_error_In _ _ H1)) as (_ & B & _).
    lra.
Qed.

Lemma detectSpeechChunks_ordered_witness :
  exists chunks,
    detectSpeechChunks trailing_pause_buffer scenario_settings = Ok chunks /\
    (forall c, In c chunks ->
       0 <= start c /\ start c < end_ c /\
       end_ c <= of_nat (length trailing_pause_buffer)) /\
    (forall k c1 c2,
       nth_error chunks k = Some c1 -> nth_error chunks (S k) = Some c2 ->
       end_ c1 <= start c2 /\ start c1 < start c2).
Proof.
  apply (detectSpeechChunks_ordered trailing_pause_buffer scenario_settings).
  - split; [vm_compute; lia|]. split; [vm_compute; lia|]. repeat constructor.
  - vm_compute. discriminate.
  - vm_compute. discriminate.
Defined.

(** Silence: no sample above the threshold, no chunk. *)
Lemma detectSpeechChunks_no_onset b s cd rest :
  channels b = cd :: rest ->
  (forall k, loud_at cd (silenceThreshold s) k = false) ->
  detectSpeechChunks b s = Ok [].
Proof.
  intros Hch Hq. rewrite (detectSpeechChunks_unfold b s cd rest Hch).
  rewrite scan_idle.
  - reflexivity.
  - reflexivity.
  - change 0 with (of_nat 0). apply not_loud_from. intros k _. apply Hq.
  - assert (X := remaining_le_length cd 0 (Qle_refl 0)). lia.
Qed.

Lemma Forall_below_not_loud cd thr :
  Forall (fun x => Qabs x < thr) cd -> forall k, loud_at cd thr k = false.
Proof.
  intros H k. unfold loud_at. destruct (nth_error cd k) as [x|] eqn:E; [|reflexivity].
  simpl. apply Qltb_ge. apply Qlt_le_weak.
  rewrite Forall_forall in H. apply H. eapply nth_error_In; eauto.
Qed.






(** A second way to fail it: samples exactly at the threshold are neither
    above nor below it, so they end no run of samples below the threshold
    and yet leave the lookahead window without a sample above it. *)
Example single_chunk_at_threshold :
  returns_chunks (detectSpeechChunks at_threshold_buffer scenario_settings)
                 [mkChunk 0 1; mkChunk 4802 4803] = true.
Proof. vm_compute. reflexivity. Qed.

(** Speech from the first sample on, then silence to the end: one chunk,
    which ends where the silence starts. *)
Lemma detectSpeechChunks_speech_then_silence rate s x q n k :
  silenceThreshold s < Qabs x ->
  Qabs q < silenceThreshold s ->
  (1 <= n)%nat -> (1 <= k)%nat ->
  0 <= rate * minSilenceDuration s ->
  detectSpeechChunks (mono rate (repeat x n ++ repeat q k)) s
  = Ok [mkChunk 0 (of_nat n)].
Proof.
  intros Hx Hq Hn Hk Hm.
  set (cd := repeat x n ++ repeat q k).
  rewrite (detectSpeechChunks_unfold (mono rate cd) s cd []) by reflexivity.
  change (minSilenceSamples (mono rate cd) s) with (rate * minSilenceDuration s).
  set (thr := silenceThreshold s) in *. set (m := rate * minSilenceDuration s) in *.
  assert (Hlen : List.length cd = (n + k)%nat).
  { unfold cd. now rewrite length_app, !repeat_length. }
  assert (Hloud : forall i, (i < n)%nat -> loud_at cd thr i = true).
  { intros i Hi. unfold loud_at, cd.
    rewrite nth_error_app1 by (rewrite repeat_length; lia).
    rewrite nth_error_repeat by lia. simpl. now apply Qltb_lt. }
  assert (Hquiet : forall i, (n <= i < n + k)%nat -> quiet_at cd thr i = true).
  { intros i Hi. unfold quiet_at, cd.
    rewrite nth_error_app2 by (rewrite repeat_length; lia).
    rewrite repeat_length, nth_error_repeat by lia. simpl. now apply Qltb_lt. }
  assert (Hnl : forall i, (n <= i)%nat -> loud_at cd thr i = false).
  { intros i Hi. destruct (Nat.lt_ge_cases i (n + k)) as [H|H].
    - apply abs_lt_gt_excl. apply Hquiet. lia.
    - unfold loud_at. replace (nth_error cd i) with (@None Q); [reflexivity|].
      symmetry. apply nth_error_None. lia. }
  rewrite Hlen. change 0 with (of_nat 0) at 1.
  rewrite scan_step_onset; [|reflexivity|apply Hloud; lia].
  replace (n + k)%nat with ((n - 1) + S k)%nat by lia.
  rewrite scan_run_speech; [|apply of_nat_nonneg|lia|].
  2:{ intros i Hi. apply abs_gt_lt_excl. apply Hloud. lia. }
  replace (1 + (n - 1))%nat with n by lia.
  rewrite scan_step_pause; [|apply of_nat_nonneg|apply Hquiet; lia].
  rewrite lookahead_quiet.
  2:{ apply not_loud_from. exact Hnl. }
  2:{ rewrite remaining_of_nat. lia. }
  rewrite scan_idle.
  - reflexivity.
  - reflexivity.
  - intros p Hp. apply (not_loud_from cd thr n Hnl). unfold m in *. lra.
  - assert (A : of_nat n < of_nat (List.length cd)) by (apply of_nat_lt; lia).
    assert (B : of_nat n + 1 <= of_nat n + m + 1) by lra.
    assert (X := remaining_step cd (of_nat n) (of_nat n + m + 1) A B).
    rewrite remaining_of_nat in X. lia.
Qed.

(** ** Pause resynthesis *)

Lemma totalLength_of_acc pm chunks : forall acc,
  fold_left
    (fun totalLength chunk =>
       let chunkDuration := end_ chunk - start chunk in
       totalLength + chunkDuration * (1 + pm))
    chunks acc
  == acc + total_duration pm chunks.
Proof.
  induction chunks as [|c rest IH]; intros acc; simpl.
  - ring.
  - rewrite IH. ring.
Qed.

Lemma totalLength_of_sum chunks pm :
  totalLength_of chunks pm == total_duration pm chunks.
Proof. unfold totalLength_of. rewrite totalLength_of_acc. ring. Qed.

Lemma total_duration_nonneg pm chunks :
  0 <= pm -> Forall sample_range chunks -> 0 <= total_duration pm chunks.
Proof.
  intros Hpm H. induction H as [|c rest (_ & _ & _ & Hlt) _ IH]; simpl.
  - apply Qle_refl.
  - assert (0 <= (end_ c - start c) * (1 + pm)) by (apply Qmult_le_0_compat; lra).
    lra.
Qed.

Lemma total_duration_pos pm chunks :
  0 <= pm -> chunks <> [] -> Forall sample_range chunks ->
  0 < total_duration pm chunks.
Proof.
  intros Hpm Hne H. destruct H as [|c rest (_ & _ & _ & Hlt) Hrest]; [congruence|].
  simpl. assert (A := total_duration_nonneg pm rest Hpm Hrest).
  assert (B : 0 < (end_ c - start c) * (1 + pm)) by (apply Qmult_lt_0_compat; lra).
  lra.
Qed.

Lemma trunc_nonneg x : 0 <= x -> trunc x = Qfloor x.
Proof. intros H. unfold trunc. now rewrite (proj2 (Qle_bool_iff 0 x) H). Qed.

Lemma Qfloor_nonneg x : 0 <= x -> (0 <= Qfloor x)%Z.
Proof. intros H. rewrite <- (Qfloor_Z 0). now apply Qfloor_resp_le. Qed.

Lemma subarray_length_le {A} (a : list A) b e :
  0 <= b -> b <= e ->
  (Z.of_nat (List.length (subarray a b e)) <= Qfloor e - Qfloor b)%Z.
Proof.
  intros Hb Hbe. unfold subarray, relative_index.
  rewrite !trunc_nonneg by lra.
  assert (B := Qfloor_nonneg b Hb).
  assert (E := Qfloor_resp_le b e Hbe).
  rewrite (proj2 (Z.ltb_ge (Qfloor b) 0)) by lia.
  rewrite (proj2 (Z.ltb_ge (Qfloor e) 0)) by lia.
  rewrite length_firstn. lia.
Qed.


(** Rounding a position never passes its ceiling. *)
Lemma Math_round_le_ceiling x : (Math_round x <= Qceiling x)%Z.
Proof.
  unfold Math_round.
  assert (A := Qfloor_le (x + (1 # 2))). assert (B := Qle_ceiling x).
  assert (C : inject_Z (Qfloor (x + (1 # 2))) < inject_Z (Qceiling x + 1)).
  { rewrite inject_Z_succ. lra. }
  rewrite <- Zlt_Qlt in C. lia.
Qed.

Lemma Math_round_nonneg x : 0 <= x -> (0 <= Math_round x)%Z.
Proof. intros H. unfold Math_round. apply Qfloor_nonneg. lra. Qed.

Lemma whole_difference c :
  sample_range c -> inject_Z (Qfloor (end_ c) - Qfloor (start c)) == end_ c - start c.
Proof.
  intros (Hs & He & _). unfold whole in *. unfold Z.sub.
  rewrite inject_Z_plus, inject_Z_opp, Hs, He. ring.
Qed.


Lemma replace_nth_length {A} (l : list A) : forall n x,
  List.length (replace_nth l n x) = List.length l.
Proof.
  induction l as [|h t IH]; intros [|n] x; simpl; auto.
Qed.

Lemma replace_nth_Forall {A} (P : A -> Prop) (l : list A) : forall n x,
  Forall P l -> P x -> Forall P (replace_nth l n x).
Proof.
  induction l as [|h t IH]; intros [|n] x Hl Hx; simpl; auto;
    inversion Hl; subst; constructor; auto.
Qed.





(** C1.  The round-trip scenario: the 64000-sample buffer at 16 kHz with
    magnitude 0.5 on [0, 8000) and 0 after it, threshold 0.07 and minimum
    silence 0.3 s, is segmented into the one chunk from 0 to 8000; its
    resynthesis with that chunk and pause multiplier 1 is a buffer of 16000
    samples, the first 8000 of them the source samples [0, 8000) and the
    other 8000 zero. *)
Theorem scenario_round_trip :
  detectSpeechChunks scenario_buffer scenario_settings = Ok [mkChunk 0 8000] /\
  exists out,
    fst (createPaddedAudio scenario_buffer [mkChunk 0 8000] scenario_settings [])
    = Ok out /\
    length out = 16000%nat /\
    channels out
    = [firstn 8000 (repeat (1 # 2) 8000 ++ repeat 0 56000) ++ repeat 0 8000].
Proof.
  split.
  - transitivity (Ok [mkChunk 0 (of_nat 8000)]); [|vm_compute; reflexivity].
    unfold scenario_buffer.
    apply detectSpeechChunks_speech_then_silence.
    + reflexivity.
    + reflexivity.
    + apply Nat.leb_le. vm_compute. reflexivity.
    + apply Nat.leb_le. vm_compute. reflexivity.
    + vm_compute. discriminate.
  - eexists. split; [vm_compute; reflexivity|].
    split; vm_compute; reflexivity.
Qed.

(** ** The silence window *)

(** C8.  The window is the product itself, not its rounding: at 22050 Hz and
    a quarter of a second it is 5512.5 samples, where the specification has
    5513.  After the first confirmed pause the scan index is then no longer
    a position of the channel, every later read is [undefined], and the
    second phrase of the buffer is lost; with the rounded window both
    phrases are found. *)
Theorem minSilenceSamples_not_rounded :
  minSilenceSamples two_phrase_buffer quarter_second == 11025 # 2 /\
  minSilenceSamples_rounded two_phrase_buffer quarter_second == 5513 /\
  returns_chunks (detectSpeechChunks two_phrase_buffer quarter_second)
                 [mkChunk 0 1] = true /\
  returns_chunks (detectSpeechChunks_rounded two_phrase_buffer quarter_second)
                 [mkChunk 0 1; mkChunk 5515 5520] = true.
Proof.
  split; [reflexivity|]. split; [reflexivity|].
  split; vm_compute; reflexivity.
Qed.

(** ** Conversion to 16-bit PCM *)

Lemma clamp_bounds x :
  -1 <= Math_max (-1) (Math_min 1 x) /\ Math_max (-1) (Math_min 1 x) <= 1.
Proof.
  unfold Math_max, Math_min.
  destruct (Qle_bool 1 x) eqn:A.
  - assert (B : Qle_bool (-1) 1 = true) by reflexivity. rewrite B.
    split; [discriminate | apply Qle_refl].
  - destruct (Qle_bool (-1) x) eqn:B.
    + apply Qle_bool_iff in B.
      apply not_true_iff_false in A. rewrite Qle_bool_iff in A.
      split; [exact B | lra].
    + split; [apply Qle_refl | discriminate].
Qed.

Lemma trunc_bounds v n :
  (0 <= n)%Z -> - inject_Z n <= v -> v <= inject_Z n -> (- n <= trunc v <= n)%Z.
Proof.
  intros Hn Hlo Hhi. unfold trunc. destruct (Qle_bool 0 v) eqn:E.
  - apply Qle_bool_iff in E. split.
    + assert (X := Qfloor_nonneg v E). lia.
    + rewrite <- (Qfloor_Z n). now apply Qfloor_resp_le.
  - apply not_true_iff_false in E. rewrite Qle_bool_iff in E. split.
    + rewrite <- (Qceiling_Z (- n)). apply Qceiling_resp_le.
      now rewrite inject_Z_opp.
    + assert (X : (Qceiling v <= Qceiling (inject_Z 0))%Z).
      { apply Qceiling_resp_le. change (inject_Z 0) with 0. lra. }
      rewrite Qceiling_Z in X. lia.
Qed.


(** ** The effect log *)

Lemma bind_Ok_inv {A B} (c : M A) (k : A -> M B) w b w2 :
  bind c k w = (Ok b, w2) ->
  exists a w1, c w = (Ok a, w1) /\ k a w1 = (Ok b, w2).
Proof.
  unfold bind. destruct (c w) as [[a|e|] w1]; intros H; try discriminate.
  exists a, w1. now split.
Qed.

Lemma lift_inv {A} (r : result A) w a w' : lift r w = (Ok a, w') -> r = Ok a /\ w' = w.
Proof. unfold lift. intros [= -> ->]. now split. Qed.

Lemma setProgress_inv m w u w' :
  setProgress m w = (Ok u, w') -> w' = w ++ [Progress m].
Proof. unfold setProgress. now intros [= _ <-]. Qed.

Lemma createBuffer_inv n l r w b w' :
  createBuffer n l r w = (Ok b, w') -> w' = w ++ [CreateBuffer n l r].
Proof.
  unfold createBuffer. destruct (_ || _)%bool; [discriminate|]. now intros [= _ <-].
Qed.

Lemma progress_messages_app w1 w2 :
  progress_messages (w1 ++ w2) = progress_messages w1 ++ progress_messages w2.
Proof. apply flat_map_app. Qed.

Lemma buffers_created_app w1 w2 :
  buffers_created (w1 ++ w2) = (buffers_created w1 + buffers_created w2)%nat.
Proof. unfold buffers_created. now rewrite filter_app, length_app. Qed.

Lemma buffers_created_progress m : buffers_created [Progress m] = 0%nat.
Proof. reflexivity. Qed.

Lemma decoding_events_progress files : forall count i,
  List.length (progress_messages (decoding_events files count i)) = List.length files /\
  buffers_created (decoding_events files count i) = 0%nat.
Proof.
  induction files as [|f rest IH]; intros count i; [now split|].
  destruct (IH count (S i)) as [A B]. split; simpl; [now rewrite A | exact B].
Qed.

Lemma createPaddedAudio_progress b chunks s w r w' :
  createPaddedAudio b chunks s w = (r, w') ->
  progress_messages w' = progress_messages w.
Proof.
  unfold createPaddedAudio. destruct (Qeq_bool _ _).
  - unfold throw. now intros [= _ <-].
  - unfold bind, createBuffer, lift. destruct (_ || _)%bool.
    + now intros [= _ <-].
    + intros [= _ <-]. rewrite progress_messages_app. simpl. apply app_nil_r.
Qed.

Section PipelineFacts.
Variable decodeAudio : File -> result AudioBuffer.
Variable EncoderState : Type.
Variable lamejs : option (Lamejs EncoderState).

Local Abbreviation processAudioFile' := (processAudioFile decodeAudio EncoderState lamejs).
Local Abbreviation mergeAudioFiles' := (mergeAudioFiles decodeAudio EncoderState lamejs).
Local Abbreviation merge_buffer' := (mergeAudioFiles_buffer decodeAudio).
Local Abbreviation decode_all' := (decode_all decodeAudio).

(** *** Pace *)

Lemma processAudioFile_no_speech file s w b :
  decodeAudio file = Ok b ->
  detectSpeechChunks b s = Ok [] ->
  processAudioFile' file s w
  = (Throw no_speech_error,
     w ++ [Progress "Step 1/4: Decoding audio...";
           Progress "Step 2/4: Analyzing for speech..."]).
Proof.
  intros Hd Hs. unfold processAudioFile, bind, setProgress, lift.
  rewrite Hd, Hs. cbn [List.length Nat.eqb]. unfold throw.
  now rewrite <- app_assoc.
Qed.

Lemma processAudioFile_progress file s w blob w' :
  processAudioFile' file s w = (Ok blob, w') ->
  List.length (progress_messages w') = (List.length (progress_messages w) + 4)%nat.
Proof.
  unfold processAudioFile. intros H.
  apply bind_Ok_inv in H as (u1 & w1 & H1 & H). apply setProgress_inv in H1.
  apply bind_Ok_inv in H as (b & w2 & H2 & H). apply lift_inv in H2 as [_ ->].
  apply bind_Ok_inv in H as (u3 & w3 & H3 & H). apply setProgress_inv in H3.
  apply bind_Ok_inv in H as (chunks & w4 & H4 & H). apply lift_inv in H4 as [_ ->].
  destruct (List.length chunks =? 0)%nat; [discriminate|].
  apply bind_Ok_inv in H as (u5 & w5 & H5 & H). apply setProgress_inv in H5.
  apply bind_Ok_inv in H as (nb & w6 & H6 & H).
  apply createPaddedAudio_progress in H6.
  apply bind_Ok_inv in H as (u7 & w7 & H7 & H). apply setProgress_inv in H7.
  apply lift_inv in H as [_ ->].
  subst w7. rewrite progress_messages_app, H6. subst w5 w3 w1.
  rewrite !progress_messages_app, !length_app. simpl. lia.
Qed.

(** *** Merge: decoding *)

Lemma decode_all_inv files : forall count i acc w bs w',
  decode_all' files count i acc w = (Ok bs, w') ->
  w' = w ++ decoding_events files count i.
Proof.
  induction files as [|f rest IH]; intros count i acc w bs w' H.
  - cbn [decode_all decoding_events] in *. unfold ret in H.
    injection H as _ <-. now rewrite app_nil_r.
  - cbn [decode_all decoding_events] in *.
    apply bind_Ok_inv in H as (u & w1 & H1 & H). apply setProgress_inv in H1.
    apply bind_Ok_inv in H as (b & w2 & H2 & H). apply lift_inv in H2 as [_ ->].
    apply IH in H. subst. now rewrite <- app_assoc.
Qed.

Lemma decode_all_ok files : forall buffers count i acc w,
  Forall2 (fun f b => decodeAudio f = Ok b) files buffers ->
  decode_all' files count i acc w
  = (Ok (acc ++ buffers), w ++ decoding_events files count i).
Proof.
  induction files as [|f rest IH]; intros buffers count i acc w H.
  - inversion H; subst. cbn [decode_all decoding_events]. unfold ret.
    now rewrite !app_nil_r.
  - inversion H as [|? b ? bs Hf Hrest]; subst.
    cbn [decode_all decoding_events]. unfold bind at 1. unfold setProgress.
    unfold bind at 1. unfold lift. rewrite Hf.
    rewrite (IH bs _ _ _ _ Hrest). now rewrite <- !app_assoc.
Qed.

(** *** Merge: validation *)

Lemma validate_ok first bs : forall acc,
  Forall (same_format first) bs ->
  validate bs (sampleRate first) (numberOfChannels first) acc
  = Ok (acc + total_frames bs)%nat.
Proof.
  induction bs as [|b rest IH]; intros acc H.
  - simpl. unfold total_frames. simpl. now rewrite Nat.add_0_r.
  - inversion H as [|? ? [Hr Hc] Hrest]; subst. simpl.
    rewrite (proj2 (Qeq_bool_iff _ _) Hr), Hc, Nat.eqb_refl. simpl.
    rewrite IH by assumption. unfold total_frames. simpl. f_equal. lia.
Qed.

Lemma validate_rejects first bs : forall acc,
  Exists (fun b => ~ same_format first b) bs ->
  exists e,
    validate bs (sampleRate first) (numberOfChannels first) acc = Throw e /\
    (e = sample_rate_error (sampleRate first) \/
     e = channel_count_error (numberOfChannels first)).
Proof.
  induction bs as [|b rest IH]; intros acc H; [inversion H|].
  cbn [validate].
  destruct (Qeq_bool (sampleRate b) (sampleRate first)) eqn:Er; cbn [negb].
  2:{ eexists. split; [reflexivity | left; reflexivity]. }
  destruct (numberOfChannels b =? numberOfChannels first)%nat eqn:Ec; cbn [negb].
  2:{ eexists. split; [reflexivity | right; reflexivity]. }
  apply IH. inversion H as [? ? Hb|? ? Hr]; subst; [|exact Hr].
  exfalso. apply Hb. split; [now apply Qeq_bool_iff | now apply Nat.eqb_eq].
Qed.

(** *** Merge: what reaches the log *)

Lemma mergeAudioFiles_buffer_log files w merged w' :
  merge_buffer' files w = (Ok merged, w') ->
  exists m1 m2 m3 n l r,
    w' = w ++ [Progress m1] ++ decoding_events files (List.length files) 0
           ++ [Progress m2; Progress m3; CreateBuffer n l r].
Proof.
  unfold mergeAudioFiles_buffer. destruct (List.length files <? 2)%nat; [discriminate|].
  cbv zeta. intros H.
  apply bind_Ok_inv in H as (u1 & w1 & H1 & H). apply setProgress_inv in H1.
  apply bind_Ok_inv in H as (bs & w2 & H2 & H). apply decode_all_inv in H2.
  apply bind_Ok_inv in H as (u3 & w3 & H3 & H). apply setProgress_inv in H3.
  destruct bs as [|firstBuffer others]; [discriminate|].
  apply bind_Ok_inv in H as (total & w4 & H4 & H). apply lift_inv in H4 as [_ ->].
  apply bind_Ok_inv in H as (u5 & w5 & H5 & H). apply setProgress_inv in H5.
  apply bind_Ok_inv in H as (mb & w6 & H6 & H). apply createBuffer_inv in H6.
  apply lift_inv in H as [_ ->].
  subst. do 6 eexists. rewrite <- !app_assoc. reflexivity.
Qed.

Lemma mergeAudioFiles_progress files w blob w' :
  mergeAudioFiles' files w = (Ok blob, w') ->
  List.length (progress_messages w')
  = (List.length (progress_messages w) + (List.length files + 3))%nat.
Proof.
  unfold mergeAudioFiles. intros H.
  apply bind_Ok_inv in H as (merged & w1 & H1 & H). apply lift_inv in H as [_ ->].
  apply mergeAudioFiles_buffer_log in H1 as (m1 & m2 & m3 & n & l & r & ->).
  rewrite !progress_messages_app, !length_app.
  rewrite (proj1 (decoding_events_progress files _ _)). simpl. lia.
Qed.
End PipelineFacts.

(** ** Pace: no speech *)

(** C5.  A buffer whose samples all have magnitude below the threshold is
    segmented into the empty sequence; and whenever segmentation of the
    decoded buffer returns the empty sequence, [processAudioFile] throws the
    no-speech error after its second progress message and creates no
    buffer. *)
Theorem no_speech_detected :
  (forall b s,
     wf_AudioBuffer b ->
     Forall (Forall (fun x => Qabs x < silenceThreshold s)) (channels b) ->
     detectSpeechChunks b s = Ok []) /\
  (forall decodeAudio EncoderState (lamejs : option (Lamejs EncoderState))
          file s w b,
     decodeAudio file = Ok b ->
     detectSpeechChunks b s = Ok [] ->
     exists w',
       processAudioFile decodeAudio EncoderState lamejs file s w
       = (Throw no_speech_error, w') /\
       List.length (progress_messages w')
       = (List.length (progress_messages w) + 2)%nat /\
       buffers_created w' = buffers_created w).
Proof.
  split.
  - intros b s Hwf Hall.
    destruct (wf_first_channel b Hwf) as (cd & rest & Hch & _).
    apply (detectSpeechChunks_no_onset b s cd rest Hch).
    apply Forall_below_not_loud. rewrite Hch in Hall. now inversion Hall.
  - intros decodeAudio St lamejs file s w b Hd Hs.
    eexists. split; [now apply processAudioFile_no_speech with (b := b)|].
    rewrite progress_messages_app, length_app, buffers_created_app.
    split; [reflexivity|]. unfold buffers_created at 2. simpl. lia.
Qed.

Lemma no_speech_detected_witness :
  detectSpeechChunks (mono 16000 (repeat 0 8)) scenario_settings = Ok [] /\
  exists w',
    processAudioFile toy_decoder nat (Some toy_lamejs) fileSilent scenario_settings []
    = (Throw no_speech_error, w') /\
    List.length (progress_messages w') = (List.length (progress_messages []) + 2)%nat /\
    buffers_created w' = buffers_created [].
Proof.
  assert (S : detectSpeechChunks (mono 16000 (repeat 0 8)) scenario_settings = Ok []).
  { apply (proj1 no_speech_detected).
    - split; [vm_compute; lia|]. split; [vm_compute; lia|]. repeat constructor.
    - repeat constructor. }
  split; [exact S|].
  apply (proj2 no_speech_detected toy_decoder nat (Some toy_lamejs) fileSilent
               scenario_settings [] (mono 16000 (repeat 0 8))).
  - reflexivity.
  - exact S.
Defined.

(** ** Progress messages *)

(** C9, as amended.  A successful Merge run over [fileCount] files calls the
    progress sink [fileCount + 3] times (the opening message, one per file,
    one for validation and one for merging), and a successful Pace run calls
    it 4 times. *)
Theorem progress_message_counts :
  (forall decodeAudio EncoderState (lamejs : option (Lamejs EncoderState))
          files w blob w',
     mergeAudioFiles decodeAudio EncoderState lamejs files w = (Ok blob, w') ->
     List.length (progress_messages w')
     = (List.length (progress_messages w) + (List.length files + 3))%nat) /\
  (forall decodeAudio EncoderState (lamejs : option (Lamejs EncoderState))
          file s w blob w',
     processAudioFile decodeAudio EncoderState lamejs file s w = (Ok blob, w') ->
     List.length (progress_messages w')
     = (List.length (progress_messages w) + 4)%nat).
Proof.
  split.
  - intros. eapply mergeAudioFiles_progress; eauto.
  - intros. eapply processAudioFile_progress; eauto.
Qed.

(** The two files of the merge scenario: a successful run and its log. *)
Lemma merge_scenario_run :
  exists blob,
    mergeAudioFiles toy_decoder nat (Some toy_lamejs) [fileA; fileB] []
    = (Ok blob,
       [Progress "Step 1/4: Decoding audio files...";
        Progress "Decoding 1/2: a.wav...";
        Progress "Decoding 2/2: b.wav...";
        Progress "Step 3/4: Validating audio properties...";
        Progress "Step 4/4: Merging audio...";
        CreateBuffer 1 3000 16000]).
Proof. eexists. vm_compute. reflexivity. Qed.

Lemma progress_message_counts_witness :
  (exists blob w',
     mergeAudioFiles toy_decoder nat (Some toy_lamejs) [fileA; fileB] []
     = (Ok blob, w') /\
     List.length (progress_messages w') = (0 + (2 + 3))%nat) /\
  (exists blob w',
     processAudioFile toy_decoder nat (Some toy_lamejs) fileA scenario_settings []
     = (Ok blob, w') /\
     List.length (progress_messages w') = (0 + 4)%nat).
Proof.
  split.
  - destruct merge_scenario_run as [blob H]. eexists. eexists.
    split; [exact H|].
    exact (proj1 progress_message_counts _ _ _ _ _ _ _ H).
  - assert (H : exists blob w',
               processAudioFile toy_decoder nat (Some toy_lamejs) fileA
                 scenario_settings [] = (Ok blob, w')).
    { eexists. eexists. vm_compute. reflexivity. }
    destruct H as (blob & w' & H). exists blob, w'. split; [exact H|].
    exact (proj2 progress_message_counts _ _ _ _ _ _ _ _ H).
Defined.

(** C9, as specified, fails: merging two files is a successful run with five
    progress messages, not four. *)
Lemma merge_progress_as_specified_fails :
  ~ merge_progress_as_specified toy_decoder nat (Some toy_lamejs) [fileA; fileB].
Proof.
  intros H. destruct merge_scenario_run as [blob R].
  specialize (H _ _ _ R). revert H. vm_compute. discriminate.
Qed.

(** ** Merge: rejected inputs *)

Lemma mergeAudioFiles_too_few decodeAudio St (lamejs : option (Lamejs St)) files w :
  (List.length files < 2)%nat ->
  mergeAudioFiles decodeAudio St lamejs files w
  = (Throw "At least two files are required to merge.", w).
Proof.
  intros H. unfold mergeAudioFiles, mergeAudioFiles_buffer, bind.
  rewrite (proj2 (Nat.ltb_lt _ _) H). reflexivity.
Qed.

Lemma mergeAudioFiles_mismatch decodeAudio St (lamejs : option (Lamejs St))
    files first others w :
  (2 <= List.length files)%nat ->
  Forall2 (fun f b => decodeAudio f = Ok b) files (first :: others) ->
  Exists (fun b => ~ same_format first b) (first :: others) ->
  exists e w',
    mergeAudioFiles decodeAudio St lamejs files w = (Throw e, w') /\
    (e = sample_rate_error (sampleRate first) \/
     e = channel_count_error (numberOfChannels first)) /\
    buffers_created w' = buffers_created w.
Proof.
  intros Hn Hdec Hex.
  destruct (validate_rejects first (first :: others) 0 Hex) as (e & Hv & He).
  unfold mergeAudioFiles, mergeAudioFiles_buffer.
  rewrite (proj2 (Nat.ltb_ge _ _) Hn). cbv zeta.
  unfold bind at 1. unfold bind at 1. unfold setProgress at 1.
  unfold bind at 1. rewrite (decode_all_ok decodeAudio files _ _ _ _ _ Hdec).
  cbn [app]. unfold bind at 1. unfold setProgress at 1.
  unfold bind at 1. unfold lift at 1. rewrite Hv.
  exists e. eexists. split; [reflexivity|]. split; [exact He|].
  rewrite !buffers_created_app.
  rewrite (proj2 (decoding_events_progress files _ _)).
  rewrite !buffers_created_progress. lia.
Qed.

(** C7.  Merging fewer than two files throws and leaves the log untouched;
    merging decoded buffers of which one differs from the first in sample
    rate or in channel count throws an error that names the value of the
    first buffer, and no buffer has been created by then: nothing is
    copied. *)
Theorem mergeAudioFiles_rejects :
  (forall decodeAudio EncoderState (lamejs : option (Lamejs EncoderState)) files w,
     (List.length files < 2)%nat ->
     mergeAudioFiles decodeAudio EncoderState lamejs files w
     = (Throw "At least two files are required to merge.", w)) /\
  (forall decodeAudio EncoderState (lamejs : option (Lamejs EncoderState))
          files first others w,
     (2 <= List.length files)%nat ->
     Forall2 (fun f b => decodeAudio f = Ok b) files (first :: others) ->
     Exists (fun b => ~ same_format first b) (first :: others) ->
     exists e w',
       mergeAudioFiles decodeAudio EncoderState lamejs files w = (Throw e, w') /\
       (e = sample_rate_error (sampleRate first) \/
        e = channel_count_error (numberOfChannels first)) /\
       buffers_created w' = buffers_created w).
Proof.
  split.
  - intros. now apply mergeAudioFiles_too_few.
  - intros. now apply mergeAudioFiles_mismatch with (others := others).
Qed.

Lemma mergeAudioFiles_rejects_witness :
  mergeAudioFiles toy_decoder nat (Some toy_lamejs) [fileA] []
  = (Throw "At least two files are required to merge.", []) /\
  exists e w',
    mergeAudioFiles toy_decoder nat (Some toy_lamejs) [file441; file480] []
    = (Throw e, w') /\
    (e = sample_rate_error 44100 \/ e = channel_count_error 1) /\
    buffers_created w' = buffers_created [].
Proof.
  split.
  - apply (proj1 mergeAudioFiles_rejects toy_decoder nat (Some toy_lamejs) [fileA] []).
    simpl. lia.
  - apply (proj2 mergeAudioFiles_rejects toy_decoder nat (Some toy_lamejs)
                 [file441; file480]
                 (mono 44100 (repeat (1 # 2) 4))
                 [mono 48000 (repeat (1 # 2) 4)] []).
    + simpl. lia.
    + repeat constructor.
    + apply Exists_cons_tl. apply Exists_cons_hd.
      intros [H _]. revert H. vm_compute. discriminate.
Defined.

(** The 44.1 kHz / 48 kHz scenario, evaluated: the error names the rate of
    the first file. *)
Example merge_sample_rate_scenario :
  mergeAudioFiles toy_decoder nat (Some toy_lamejs) [file441; file480] []
  = (Throw "Mismatched sample rates. All files must have a sample rate of 44100 Hz.",
     [Progress "Step 1/4: Decoding audio files...";
      Progress "Decoding 1/2: cd.wav...";
      Progress "Decoding 2/2: dat.wav...";
      Progress "Step 3/4: Validating audio properties..."]).
Proof. vm_compute. reflexivity. Qed.

(** ** Merge: concatenation *)

Lemma TypedArray_set_Ok {A} (dest src : list A) (offset : nat) :
  (offset + List.length src <= List.length dest)%nat ->
  TypedArray_set dest src (Z.of_nat offset) = Ok (splice dest src offset).
Proof.
  intros H. unfold TypedArray_set, splice.
  rewrite (proj2 (Z.ltb_ge _ _)) by lia.
  rewrite (proj2 (Z.ltb_ge _ _)) by lia.
  simpl. now rewrite Nat2Z.id.
Qed.

Lemma splice_length {A} (dest src : list A) offset :
  (offset + List.length src <= List.length dest)%nat ->
  List.length (splice dest src offset) = List.length dest.
Proof.
  intros H. unfold splice. rewrite !length_app, length_firstn, length_skipn. lia.
Qed.

Lemma skipn_repeat_sub {A} (z : A) k : forall n,
  skipn k (repeat z n) = repeat z (n - k).
Proof.
  induction k as [|k IH]; intros n.
  - now rewrite Nat.sub_0_r.
  - destruct n as [|n]; simpl; [reflexivity | apply IH].
Qed.

(** Writing into the zero tail extends the part already written. *)
Lemma splice_zero_tail {A} (X src : list A) (z : A) n :
  splice (X ++ repeat z n) src (List.length X)
  = (X ++ src) ++ repeat z (n - List.length src).
Proof.
  unfold splice.
  rewrite firstn_app, firstn_all, Nat.sub_diag, firstn_O, app_nil_r.
  rewrite skipn_app, skipn_all2 by lia.
  replace (List.length X + List.length src - List.length X)%nat
    with (List.length src) by lia.
  rewrite skipn_repeat_sub. now rewrite <- app_assoc.
Qed.

Lemma nth_error_replace_nth {A} (l : list A) : forall n x c,
  (n < List.length l)%nat ->
  nth_error (replace_nth l n x) c = if (c =? n)%nat then Some x else nth_error l c.
Proof.
  induction l as [|h t IH]; intros n x c Hn; [simpl in Hn; lia|].
  destruct n as [|n], c as [|c]; simpl; try reflexivity.
  apply IH. simpl in Hn. lia.
Qed.

Lemma getChannelData_Ok b c :
  (c < numberOfChannels b)%nat ->
  exists d, getChannelData b c = Ok d /\ nth_error (channels b) c = Some d.
Proof.
  intros H. unfold getChannelData, numberOfChannels in *.
  destruct (nth_error (channels b) c) as [d|] eqn:E.
  - exists d. now split.
  - apply nth_error_None in E. lia.
Qed.

(** The inner loop: the channels in [[channel, channel + count)] receive the
    buffer at [offset], the others are untouched. *)
Lemma copy_channels_spec buffer offset total : forall count channel merged,
  (channel + count <= numberOfChannels merged)%nat ->
  (channel + count <= numberOfChannels buffer)%nat ->
  Forall (fun c => List.length c = total) (channels merged) ->
  Forall (fun c => List.length c = length buffer) (channels buffer) ->
  (offset + length buffer <= total)%nat ->
  exists out,
    copy_channels buffer offset count channel merged = Ok out /\
    sampleRate out = sampleRate merged /\
    length out = length merged /\
    numberOfChannels out = numberOfChannels merged /\
    Forall (fun c => List.length c = total) (channels out) /\
    forall c,
      nth_error (channels out) c
      = if ((channel <=? c) && (c <? channel + count))%nat
        then option_map (fun d => splice d (nth c (channels buffer) []) offset)
                        (nth_error (channels merged) c)
        else nth_error (channels merged) c.
Proof.
  induction count as [|count IH]; intros channel merged Hm Hb Hall Hbuf Hfit.
  - exists merged. repeat split; auto. intros c.
    destruct (channel <=? c)%nat eqn:A; [|reflexivity].
    destruct (c <? channel + 0)%nat eqn:B; [|reflexivity].
    apply Nat.leb_le in A. apply Nat.ltb_lt in B. lia.
  - cbn [copy_channels].
    destruct (getChannelData_Ok merged channel) as (dest & -> & Hdest); [lia|].
    destruct (getChannelData_Ok buffer channel) as (src & -> & Hsrc); [lia|].
    cbn [rbind].
    assert (Ld : List.length dest = total).
    { rewrite Forall_forall in Hall. apply Hall. eapply nth_error_In; eauto. }
    assert (Ls : List.length src = length buffer).
    { rewrite Forall_forall in Hbuf. apply Hbuf. eapply nth_error_In; eauto. }
    rewrite TypedArray_set_Ok by lia. cbn [rbind].
    destruct (IH (S channel) (setChannelData merged channel (splice dest src offset)))
      as (out & Hout & A & B & C & D & E).
    + unfold numberOfChannels, setChannelData in *. simpl.
      rewrite replace_nth_length. lia.
    + lia.
    + simpl. apply replace_nth_Forall; [assumption|].
      rewrite splice_length; lia.
    + assumption.
    + assumption.
    + exists out. split; [exact Hout|].
      unfold numberOfChannels in *. simpl in A, B, C.
      rewrite replace_nth_length in C.
      repeat split; auto. intros c. rewrite E.
      cbn [setChannelData channels].
      rewrite nth_error_replace_nth by lia.
      destruct (Nat.eq_dec c channel) as [->|Hne].
      * rewrite Nat.eqb_refl.
        assert (P : (S channel <=? channel)%nat = false) by (apply Nat.leb_gt; lia).
        assert (Q : (channel <=? channel)%nat = true) by apply Nat.leb_refl.
        assert (R : (channel <? channel + S count)%nat = true)
          by (apply Nat.ltb_lt; lia).
        rewrite P, Q, R, Hdest. cbn [andb option_map]. f_equal. f_equal.
        symmetry. now apply nth_error_nth.
      * rewrite (proj2 (Nat.eqb_neq _ _) Hne).
        replace (S channel + count)%nat with (channel + S count)%nat by lia.
        destruct (S channel <=? c)%nat eqn:P, (channel <=? c)%nat eqn:Q;
          try reflexivity.
        -- apply Nat.leb_le in P. apply Nat.leb_gt in Q. lia.
        -- apply Nat.leb_gt in P. apply Nat.leb_le in Q. lia.
Qed.

Lemma total_frames_app a b : total_frames (a ++ b) = (total_frames a + total_frames b)%nat.
Proof. unfold total_frames. now rewrite map_app, list_sum_app. Qed.

Lemma concat_channel_app a b c :
  concat_channel (a ++ b) c = concat_channel a c ++ concat_channel b c.
Proof. unfold concat_channel. now rewrite map_app, concat_app. Qed.

Lemma concat_channel_length nch done c :
  (c < nch)%nat -> Forall (buffer_of nch) done ->
  List.length (concat_channel done c) = total_frames done.
Proof.
  intros Hc H. induction H as [|b rest [Hn Hall] _ IH]; [reflexivity|].
  unfold concat_channel, total_frames in *. simpl. rewrite length_app, IH.
  f_equal. rewrite Forall_forall in Hall. apply Hall. apply nth_In.
  unfold numberOfChannels in Hn. lia.
Qed.

(** The outer loop: from a state with [done] in, to one with all in. *)
Lemma copy_buffers_spec total nch rate : forall rest done merged,
  merge_state done total nch rate merged ->
  Forall (fun c => List.length c = total) (channels merged) ->
  Forall (buffer_of nch) done ->
  Forall (buffer_of nch) rest ->
  (total_frames done + total_frames rest = total)%nat ->
  exists out,
    copy_buffers rest nch (total_frames done) merged = Ok out /\
    merge_state (done ++ rest) total nch rate out.
Proof.
  induction rest as [|b rest IH]; intros done merged Hst Hall Hdone Hrest Htot.
  - exists merged. rewrite app_nil_r. now split.
  - cbn [copy_buffers].
    apply Forall_cons_iff in Hrest as [[Hbn Hball] Hrest'].
    destruct Hst as (Sr & Sl & Sn & Sc).
    assert (Hfr : total_frames (b :: rest) = (length b + total_frames rest)%nat)
      by reflexivity.
    destruct (copy_channels_spec b (total_frames done) total nch 0 merged)
      as (out & Hout & A & B & C & D & E); [lia|lia|assumption|assumption|lia|].
    rewrite Hout. cbn [rbind].
    assert (Hst' : merge_state (done ++ [b]) total nch rate out).
    { repeat split; try congruence. intros c Hc. rewrite E.
      rewrite (proj2 (Nat.ltb_lt _ _)) by lia. cbn [Nat.leb andb].
      rewrite (Sc c) by lia. cbn [option_map]. f_equal.
      rewrite <- (concat_channel_length nch done c Hc Hdone) at 2.
      rewrite splice_zero_tail.
      rewrite concat_channel_app, total_frames_app.
      assert (Lc : List.length (nth c (channels b) []) = length b).
      { rewrite Forall_forall in Hball. apply Hball. apply nth_In.
        unfold numberOfChannels in Hbn. lia. }
      unfold concat_channel at 3. cbn [map List.concat]. rewrite app_nil_r.
      f_equal. f_equal. rewrite Lc.
      change (total_frames [b]) with (length b + 0)%nat. lia. }
    replace (total_frames done + length b)%nat with (total_frames (done ++ [b]))
      by (rewrite total_frames_app; unfold total_frames at 2; simpl; lia).
    destruct (IH (done ++ [b]) out Hst') as (final & Hf & Hfs).
    + exact D.
    + apply Forall_app. split; [assumption|]. repeat constructor; assumption.
    + assumption.
    + rewrite total_frames_app. unfold total_frames at 2. simpl. lia.
    + exists final. split; [exact Hf|]. now rewrite <- app_assoc in Hfs.
Qed.

Lemma createBuffer_state nch total rate :
  (1 <= nch)%nat -> (1 <= total)%nat ->
  exists mb,
    (forall w, createBuffer nch (Z.of_nat total) rate w
               = (Ok mb, w ++ [CreateBuffer nch (Z.of_nat total) rate])) /\
    merge_state [] total nch rate mb /\
    Forall (fun c => List.length c = total) (channels mb).
Proof.
  intros Hn Ht.
  exists (mkAudioBuffer rate total (repeat (repeat 0 total) nch)).
  split; [|split].
  - intros w. unfold createBuffer.
    rewrite (proj2 (Z.leb_gt _ _)) by lia.
    rewrite (proj2 (Nat.eqb_neq _ _)) by lia. simpl orb. cbv iota.
    now rewrite Nat2Z.id.
  - repeat split; simpl.
    + unfold numberOfChannels. simpl. apply repeat_length.
    + intros c Hc. rewrite nth_error_repeat by assumption.
      now rewrite Nat.sub_0_r.
  - simpl. apply Forall_forall. intros c Hin.
    apply repeat_spec in Hin. subst c. apply repeat_length.
Qed.

Lemma wf_buffer_of first b :
  wf_AudioBuffer b -> same_format first b -> buffer_of (numberOfChannels first) b.
Proof. intros (_ & _ & Hall) [_ Hn]. now split. Qed.

(** C6.  For two or more files whose decoded buffers are well formed and
    share the sample rate and the channel count of the first, the merged
    buffer has the sum of their lengths as length, the format of the first,
    and as each channel the corresponding channels of the inputs one after
    the other, in the order of the list; that buffer is what is encoded. *)
Theorem mergeAudioFiles_concatenates
    (decodeAudio : File -> result AudioBuffer) (EncoderState : Type)
    (lamejs : option (Lamejs EncoderState))
    (files : list File) (first : AudioBuffer) (others : list AudioBuffer)
    (w : World) :
  (2 <= List.length files)%nat ->
  Forall2 (fun f b => decodeAudio f = Ok b) files (first :: others) ->
  Forall wf_AudioBuffer (first :: others) ->
  Forall (same_format first) (first :: others) ->
  exists merged w',
    mergeAudioFiles_buffer decodeAudio files w = (Ok merged, w') /\
    length merged = total_frames (first :: others) /\
    numberOfChannels merged = numberOfChannels first /\
    sampleRate merged = sampleRate first /\
    (forall c, (c < numberOfChannels first)%nat ->
       nth_error (channels merged) c = Some (concat_channel (first :: others) c)) /\
    mergeAudioFiles decodeAudio EncoderState lamejs files w
    = (encodeMp3 EncoderState lamejs merged, w').
Proof.
  intros Hn Hdec Hwf Hsame.
  set (bs := first :: others) in *.
  assert (Hof : Forall (buffer_of (numberOfChannels first)) bs).
  { rewrite Forall_forall in *. intros b Hb. apply wf_buffer_of; auto. }
  assert (Hfirst : wf_AudioBuffer first) by (inversion Hwf; assumption).
  destruct Hfirst as (Hch1 & Hlen1 & _).
  assert (Htot : (1 <= total_frames bs)%nat).
  { unfold bs, total_frames. simpl. lia. }
  destruct (createBuffer_state (numberOfChannels first) (total_frames bs)
              (sampleRate first) Hch1 Htot)
    as (mb & Hcb & Hst & Hall).
  destruct (copy_buffers_spec (total_frames bs) (numberOfChannels first)
              (sampleRate first) bs [] mb Hst Hall (Forall_nil _) Hof)
    as (merged & Hcopy & Sr & Sl & Sn & Sc); [reflexivity|].
  change (total_frames []) with 0%nat in Hcopy. cbn [app] in Sc.
  assert (Hrun : exists w',
             mergeAudioFiles_buffer decodeAudio files w = (Ok merged, w')).
  { unfold mergeAudioFiles_buffer.
    rewrite (proj2 (Nat.ltb_ge _ _) Hn). cbv zeta.
    unfold bind at 1. unfold setProgress at 1.
    unfold bind at 1. rewrite (decode_all_ok decodeAudio files _ _ _ _ _ Hdec).
    cbn [app]. unfold bind at 1. unfold setProgress at 1.
    fold bs. unfold bs at 1.
    unfold bind at 1. unfold lift at 1.
    fold bs. rewrite (validate_ok first bs 0 Hsame). cbn [Nat.add].
    unfold bind at 1. unfold setProgress at 1.
    unfold bind at 1. rewrite Hcb. unfold lift. rewrite Hcopy.
    eexists. reflexivity. }
  destruct Hrun as [w' Hrun]. exists merged, w'.
  split; [exact Hrun|]. split; [exact Sl|]. split; [exact Sn|]. split; [exact Sr|].
  split.
  - intros c Hc. rewrite (Sc c Hc). rewrite Nat.sub_diag. simpl.
    now rewrite app_nil_r.
  - unfold mergeAudioFiles, bind. rewrite Hrun. reflexivity.
Qed.

Lemma mergeAudioFiles_concatenates_witness :
  exists merged w',
    mergeAudioFiles_buffer toy_decoder [fileA; fileB] [] = (Ok merged, w') /\
    length merged = total_frames [bufferA; bufferB] /\
    numberOfChannels merged = numberOfChannels bufferA /\
    sampleRate merged = sampleRate bufferA /\
    (forall c, (c < numberOfChannels bufferA)%nat ->
       nth_error (channels merged) c = Some (concat_channel [bufferA; bufferB] c)) /\
    mergeAudioFiles toy_decoder nat (Some toy_lamejs) [fileA; fileB] []
    = (encodeMp3 nat (Some toy_lamejs) merged, w').
Proof.
  apply (mergeAudioFiles_concatenates toy_decoder nat (Some toy_lamejs)
           [fileA; fileB] bufferA [bufferB] []).
  - simpl. lia.
  - constructor; [vm_compute; reflexivity|].
    constructor; [vm_compute; reflexivity|]. constructor.
  - constructor; [|constructor; [|constructor]].
    + split; [vm_compute; lia|]. split; [vm_compute; lia|].
      constructor; [vm_compute; reflexivity | constructor].
    + split; [vm_compute; lia|]. split; [vm_compute; lia|].
      constructor; [vm_compute; reflexivity | constructor].
  - constructor; [|constructor; [|constructor]]; split; reflexivity.
Defined.

(** The merge scenario, evaluated: 1000 samples of the first file, then
    2000 of the second. *)
Example merge_scenario_buffer :
  fst (mergeAudioFiles_buffer toy_decoder [fileA; fileB] [])
  = Ok (mkAudioBuffer 16000 3000 [repeat (1 # 2) 1000 ++ repeat (-1 # 2) 2000]).
Proof. vm_compute. reflexivity. Qed.

(** ** Remarks on binary64 *)

(** In the round-trip scenario the window is exactly 4800 in binary64 too
    (0.3 is the double 0x1.3333333333333p-2). *)
Example binary64_scenario_window :
  PrimFloat.eqb (minSilenceSamples_binary64 16000 0x1.3333333333333p-2) 4800 = true.
Proof. reflexivity. Qed.

(** At 44.1 kHz and 0.35 s the window is not whole in binary64: it lies
    strictly between 15434 and 15435, although the exact product is 15435. *)
Example binary64_window_not_whole :
  PrimFloat.ltb 15434 (minSilenceSamples_binary64 44100 0x1.6666666666666p-2) = true /\
  PrimFloat.ltb (minSilenceSamples_binary64 44100 0x1.6666666666666p-2) 15435 = true.
Proof. split; reflexivity. Qed.

(** A chunk of 50 samples with multiplier 0.1 contributes slightly more than
    55 in binary64, so the ceiling taken by the program is 56 there. *)
Example binary64_length_above_sum :
  PrimFloat.ltb 55 (chunk_length_binary64 50 0x1.999999999999ap-4) = true.
Proof. reflexivity. Qed.

(** * Part IV: further properties of the code *)

(** ** Segmentation: where chunks begin and end *)

Lemma abs_gt_get_onset cd thr i :
  abs_gt (get cd i) thr = true -> onset_at cd thr i.
Proof.
  intros H. destruct (abs_gt_Some _ _ H) as [x Hx].
  destruct (get_Some _ _ _ Hx) as (n & Hn & Hnth).
  exists n. split; [exact Hn|]. unfold loud_at. now rewrite Hnth, <- Hx.
Qed.

Lemma abs_lt_get_pause cd thr i :
  abs_lt (get cd i) thr = true -> pause_at cd thr i.
Proof.
  intros H. destruct (abs_lt_Some _ _ H) as [x Hx].
  destruct (get_Some _ _ _ Hx) as (n & Hn & Hnth).
  exists n. split; [exact Hn|]. unfold quiet_at. now rewrite Hnth, <- Hx.
Qed.

Lemma scan_boundaries cd thr m fuel : forall i ss chunks ss' chunks',
  Forall (chunk_boundaries cd thr) chunks ->
  (ss < 0 \/ onset_at cd thr ss) ->
  scan cd thr m fuel i ss chunks = Some (ss', chunks') ->
  Forall (chunk_boundaries cd thr) chunks' /\ (ss' < 0 \/ onset_at cd thr ss').
Proof.
  induction fuel as [|fuel IH]; intros i ss chunks ss' chunks' Hch Hss H;
    [discriminate|].
  rewrite scan_S in H.
  destruct (Qltb i (of_nat (List.length cd))); [|injection H as <- <-; now split].
  cbv zeta in H.
  set (ss1 := if abs_gt (get cd i) thr && Qltb ss 0 then i else ss) in *.
  assert (Hss1 : ss1 < 0 \/ onset_at cd thr ss1).
  { unfold ss1. destruct (abs_gt (get cd i) thr) eqn:G; [|exact Hss].
    destruct (Qltb ss 0); [|exact Hss]. right. now apply abs_gt_get_onset. }
  destruct (abs_lt (get cd i) thr && Qle_bool 0 ss1) eqn:C.
  - apply andb_true_iff in C. destruct C as [Cq Cs]. apply Qle_bool_iff in Cs.
    destruct (lookahead cd thr m (S (List.length cd)) i i) as [[j|]|];
      [ | |discriminate].
    + exact (IH _ _ _ _ _ Hch Hss1 H).
    + apply (IH _ _ _ _ _) in H; [exact H| |left; reflexivity].
      apply Forall_app. split; [exact Hch|]. constructor; [|constructor].
      split; simpl.
      * destruct Hss1 as [Hneg|Hon]; [lra|exact Hon].
      * left. now apply abs_lt_get_pause.
  - exact (IH _ _ _ _ _ Hch Hss1 H).
Qed.

Lemma detect_boundaries (b : AudioBuffer) (s : Settings)
    (cd : Float32Array) (rest : list Float32Array) (chunks : list SpeechChunk) :
  channels b = cd :: rest ->
  detectSpeechChunks b s = Ok chunks ->
  Forall (chunk_boundaries cd (silenceThreshold s)) chunks.
Proof.
  intros Hch H. rewrite (detectSpeechChunks_unfold b s cd rest Hch) in H.
  destruct (scan cd (silenceThreshold s) (minSilenceSamples b s)
              (S (List.length cd)) 0 (-1) []) as [[ss cs]|] eqn:E; [|discriminate].
  injection H as <-.
  assert (Hinit : -1 < 0 \/ onset_at cd (silenceThreshold s) (-1))
    by (left; reflexivity).
  destruct (scan_boundaries _ _ _ _ _ _ _ _ _ (Forall_nil _) Hinit E)
    as [Hcs Hss].
  destruct (Qle_bool 0 ss) eqn:P; [|exact Hcs].
  apply Qle_bool_iff in P. apply Forall_app. split; [exact Hcs|].
  constructor; [|constructor]. split; simpl.
  - destruct Hss as [Hneg|Hon]; [lra|exact Hon].
  - right. reflexivity.
Qed.

(** X1.  Whatever the settings, every chunk that segmentation returns starts
    at the position of a sample above the threshold and ends at the position
    of a sample below the threshold or at the end of the channel. *)
Theorem detectSpeechChunks_boundaries (b : AudioBuffer) (s : Settings)
    (cd : Float32Array) (rest : list Float32Array) (chunks : list SpeechChunk) :
  channels b = cd :: rest ->
  detectSpeechChunks b s = Ok chunks ->
  Forall (chunk_boundaries cd (silenceThreshold s)) chunks.
Proof. apply detect_boundaries. Qed.

Lemma detectSpeechChunks_boundaries_witness :
  Forall (chunk_boundaries [1 # 2; 0; 1 # 2] (silenceThreshold scenario_settings))
         [mkChunk 0 3].
Proof.
  apply (detectSpeechChunks_boundaries paused_phrase_buffer scenario_settings
           [1 # 2; 0; 1 # 2] [] [mkChunk 0 3]).
  - reflexivity.
  - vm_compute. reflexivity.
Defined.

(** ** Segmentation: a window that is not a whole number *)

Lemma whole_iff x : whole x <-> exists z, x == inject_Z z.
Proof.
  unfold whole. split.
  - intros H. exists (Qfloor x). now symmetry.
  - intros [z Hz]. rewrite Hz at 1. rewrite Qfloor_Z. now symmetry.
Qed.


Lemma whole_of_nat n : whole (of_nat n).
Proof. apply whole_iff. now exists (Z.of_nat n). Qed.









(** ** Resynthesis: what the output holds *)

Lemma subarray_length_eq {A} (a : list A) b e :
  List.length (subarray a b e) = subarray_length (List.length a) b e.
Proof.
  unfold subarray, subarray_length. now rewrite length_firstn, length_skipn.
Qed.

Lemma repeat_split {A} (z : A) a n :
  (a <= n)%nat -> repeat z n = repeat z a ++ repeat z (n - a).
Proof. intros H. rewrite <- repeat_app. f_equal. lia. Qed.

Lemma Math_round_mono x y : x <= y -> (Math_round x <= Math_round y)%Z.
Proof. intros H. unfold Math_round. apply Qfloor_resp_le. lra. Qed.

Lemma Math_round_plus_whole x d :
  Math_round (x + inject_Z d) = (Math_round x + d)%Z.
Proof.
  unfold Math_round.
  assert (A := Qfloor_le (x + (1 # 2))). assert (B := Qlt_floor (x + (1 # 2))).
  assert (C := Qfloor_le (x + inject_Z d + (1 # 2))).
  assert (D := Qlt_floor (x + inject_Z d + (1 # 2))).
  rewrite inject_Z_succ in B, D.
  assert (E : inject_Z (Qfloor (x + inject_Z d + (1 # 2)))
              < inject_Z (Qfloor (x + (1 # 2)) + d + 1)).
  { rewrite inject_Z_succ, inject_Z_plus. lra. }
  assert (F : inject_Z (Qfloor (x + (1 # 2)) + d)
              < inject_Z (Qfloor (x + inject_Z d + (1 # 2)) + 1)).
  { rewrite inject_Z_succ, inject_Z_plus. lra. }
  rewrite <- Zlt_Qlt in E, F. lia.
Qed.

Lemma copy_chunks_interleave src pm chunks :
  0 <= pm -> Forall sample_range chunks ->
  forall position W N,
    0 <= position ->
    (Z.of_nat (List.length W) <= Math_round position)%Z ->
    (Qceiling (position + total_duration pm chunks) <= Z.of_nat N)%Z ->
    let body := interleave (gaps_of (List.length src) pm chunks position (List.length W))
                           (map (chunk_samples src) chunks) in
    copy_chunks src (W ++ repeat 0 (N - List.length W)) pm chunks position
    = Ok ((W ++ body) ++ repeat 0 (N - List.length W - List.length body)).
Proof.
  intros Hpm H. induction H as [|c rest Hc Hrest IH]; intros P W N HP HW Hroom.
  - simpl. unfold interleave. simpl. rewrite app_nil_r, Nat.sub_0_r. reflexivity.
  - cbn [copy_chunks gaps_of map]. cbv zeta.
    assert (Hd := whole_difference c Hc).
    destruct Hc as (Hs & He & H0 & Hlt).
    assert (Hnn := total_duration_nonneg pm rest Hpm Hrest).
    assert (Hpmd : 0 <= (end_ c - start c) * pm) by (apply Qmult_le_0_compat; lra).
    set (dz := (Qfloor (end_ c) - Qfloor (start c))%Z) in *.
    assert (Hsub := subarray_length_le src (start c) (end_ c) H0
                      (Qlt_le_weak _ _ Hlt)).
    fold dz in Hsub. fold (chunk_samples src c) in Hsub |- *.
    set (data := chunk_samples src c) in *.
    set (here := Z.to_nat (Math_round P)).
    assert (Hr0 := Math_round_nonneg P HP).
    assert (Hhere : Z.of_nat here = Math_round P) by (unfold here; lia).
    simpl in Hroom.
    assert (Hceil : (Qceiling P + dz
                     <= Qceiling (P + ((end_ c - start c) * (1 + pm)
                                       + total_duration pm rest)))%Z).
    { assert (A := Qceiling_lt P).
      assert (B := Qle_ceiling (P + ((end_ c - start c) * (1 + pm)
                                     + total_duration pm rest))).
      rewrite inject_Z_pred in A.
      assert (C : inject_Z (Qceiling P + dz - 1)
                  < inject_Z (Qceiling (P + ((end_ c - start c) * (1 + pm)
                                             + total_duration pm rest)))).
      { rewrite inject_Z_pred, inject_Z_plus, Hd. lra. }
      rewrite <- Zlt_Qlt in C. lia. }
    assert (Hr := Math_round_le_ceiling P).
    assert (Hfit : (here + List.length data <= N)%nat) by lia.
    rewrite (repeat_split 0 (here - List.length W) (N - List.length W)) by lia.
    rewrite app_assoc.
    replace (N - List.length W - (here - List.length W))%nat with (N - here)%nat by lia.
    rewrite <- Hhere.
    assert (Hset : TypedArray_set
                     ((W ++ repeat 0 (here - List.length W)) ++ repeat 0 (N - here))
                     data (Z.of_nat here)
                   = Ok (((W ++ repeat 0 (here - List.length W)) ++ data)
                         ++ repeat 0 (N - here - List.length data))).
    { rewrite TypedArray_set_Ok by (rewrite !length_app, !repeat_length; lia).
      f_equal. rewrite <- splice_zero_tail. f_equal.
      rewrite length_app, repeat_length. lia. }
    rewrite Hset.
    set (W' := (W ++ repeat 0 (here - List.length W)) ++ data).
    assert (LW' : List.length W' = (here + List.length data)%nat).
    { unfold W'. rewrite !length_app, repeat_length. lia. }
    replace (N - here - List.length data)%nat with (N - List.length W')%nat by lia.
    rewrite IH.
    + assert (Ld : List.length data
                   = subarray_length (List.length src) (start c) (end_ c))
        by apply subarray_length_eq.
      rewrite <- Ld, <- LW'.
      set (G := gaps_of (List.length src) pm rest
                  (P + (end_ c - start c) + (end_ c - start c) * pm)
                  (List.length W')).
      set (I := interleave G (map (chunk_samples src) rest)).
      assert (EI : interleave ((here - List.length W)%nat :: G)
                              (data :: map (chunk_samples src) rest)
                   = (repeat 0 (here - List.length W) ++ data) ++ I) by reflexivity.
      rewrite EI. f_equal. unfold W'.
      rewrite !length_app, repeat_length, <- !app_assoc.
      f_equal. f_equal. f_equal. f_equal. f_equal. lia.
    + lra.
    + rewrite LW'.
      assert (M : (Math_round P + dz
                   <= Math_round (P + (end_ c - start c) + (end_ c - start c) * pm))%Z).
      { rewrite <- Math_round_plus_whole. apply Math_round_mono.
        rewrite Hd. lra. }
      lia.
    + erewrite Qceiling_comp; [exact Hroom|]. ring.
Qed.

Lemma of_nat_mul a b : of_nat (a * b) == of_nat a * of_nat b.
Proof. unfold of_nat. now rewrite Nat2Z.inj_mul, inject_Z_mult. Qed.

Lemma Math_round_comp x y : x == y -> Math_round x = Math_round y.
Proof. intros E. unfold Math_round. apply Qfloor_comp. now rewrite E. Qed.

Lemma Math_round_of_nat n : Math_round (of_nat n) = Z.of_nat n.
Proof.
  unfold of_nat.
  rewrite (Math_round_comp _ (0 + inject_Z (Z.of_nat n))) by ring.
  rewrite Math_round_plus_whole. reflexivity.
Qed.

Lemma chunk_samples_width src c :
  sample_range_in (List.length src) c ->
  List.length (chunk_samples src c) = chunk_width c.
Proof.
  intros [(Hs & He & H0 & Hlt) Hin]. unfold chunk_samples, chunk_width.
  rewrite subarray_length_eq. unfold subarray_length, relative_index.
  rewrite !trunc_nonneg by lra.
  assert (B := Qfloor_nonneg (start c) H0).
  assert (E := Qfloor_resp_le (start c) (end_ c) (Qlt_le_weak _ _ Hlt)).
  assert (F := Qfloor_resp_le (end_ c) (of_nat (List.length src)) Hin).
  unfold of_nat in F. rewrite Qfloor_Z in F.
  rewrite (proj2 (Z.ltb_ge (Qfloor (start c)) 0)) by lia.
  rewrite (proj2 (Z.ltb_ge (Qfloor (end_ c)) 0)) by lia.
  lia.
Qed.

Lemma chunk_width_duration c :
  sample_range c -> of_nat (chunk_width c) == end_ c - start c.
Proof.
  intros Hc. rewrite <- (whole_difference c Hc).
  destruct Hc as (_ & _ & H0 & Hlt). unfold of_nat, chunk_width.
  assert (E := Qfloor_resp_le (start c) (end_ c) (Qlt_le_weak _ _ Hlt)).
  rewrite Z2Nat.id by lia. reflexivity.
Qed.

Lemma total_duration_whole k pm chunks :
  pm == of_nat k -> Forall sample_range chunks ->
  total_duration pm chunks == of_nat (padded_total k chunks).
Proof.
  intros Hk H. induction H as [|c rest Hc _ IH].
  - reflexivity.
  - assert (E : padded_total k (c :: rest)
                = ((1 + k) * chunk_width c + padded_total k rest)%nat) by reflexivity.
    assert (X : (end_ c - start c) * (1 + pm)
                == (1 + of_nat k) * of_nat (chunk_width c)).
    { rewrite Hk, (chunk_width_duration c Hc). ring. }
    rewrite E. cbn [total_duration].
    rewrite X, IH, of_nat_add, of_nat_mul, of_nat_add.
    change (of_nat 1) with 1. ring.
Qed.

(** With a whole multiplier every write lands where the last pause ends. *)
Lemma copy_chunks_whole src k pm chunks :
  pm == of_nat k -> Forall (sample_range_in (List.length src)) chunks ->
  forall position W,
    position == of_nat (List.length W) ->
    copy_chunks src (W ++ repeat 0 (padded_total k chunks)) pm chunks position
    = Ok (W ++ List.concat (map (phrase_with_pause k src) chunks)).
Proof.
  intros Hk H. induction H as [|c rest Hc Hrest IH]; intros P W HP.
  - simpl. reflexivity.
  - cbn [copy_chunks map List.concat]. cbv zeta.
    fold (chunk_samples src c).
    assert (Lw := chunk_samples_width src c Hc).
    assert (Hd := chunk_width_duration c (proj1 Hc)).
    set (data := chunk_samples src c) in *.
    rewrite (Math_round_comp _ _ HP), Math_round_of_nat.
    assert (E : padded_total k (c :: rest)
                = (List.length data + (k * List.length data + padded_total k rest))%nat).
    { change (padded_total k (c :: rest))
        with ((1 + k) * chunk_width c + padded_total k rest)%nat.
      rewrite Lw, Nat.mul_add_distr_r, Nat.mul_1_l. lia. }
    rewrite E.
    rewrite TypedArray_set_Ok by (rewrite length_app, repeat_length; lia).
    rewrite splice_zero_tail.
    replace (List.length data + (k * List.length data + padded_total k rest)
             - List.length data)%nat
      with (k * List.length data + padded_total k rest)%nat by lia.
    rewrite repeat_app, app_assoc.
    rewrite IH.
    + unfold phrase_with_pause at 2. fold data. now rewrite <- !app_assoc.
    + rewrite !length_app, repeat_length, !of_nat_add, of_nat_mul, Lw.
      rewrite HP, Hk, <- Hd. ring.
Qed.

Lemma nth_error_app_head {A} (l1 l2 : list A) x :
  nth_error (l1 ++ x :: l2) (List.length l1) = Some x.
Proof. rewrite nth_error_app2 by lia. now rewrite Nat.sub_diag. Qed.

Lemma replace_nth_app_head {A} (l1 l2 : list A) y x :
  replace_nth (l1 ++ y :: l2) (List.length l1) x = l1 ++ x :: l2.
Proof. induction l1 as [|h t IH]; simpl; [reflexivity | now rewrite IH]. Qed.

(** The loop over the channels, when each channel alone gives [render]. *)
Lemma fill_channels_render original chunks pm N (render : Float32Array -> Float32Array) :
  (forall src, In src (channels original) ->
     copy_chunks src (repeat 0 N) pm chunks 0 = Ok (render src)) ->
  forall todo done newBuffer,
    channels original = done ++ todo ->
    channels newBuffer = map render done ++ repeat (repeat 0 N) (List.length todo) ->
    fill_channels original chunks pm (List.length todo) (List.length done) newBuffer
    = Ok (mkAudioBuffer (sampleRate newBuffer) (length newBuffer)
            (map render (done ++ todo))).
Proof.
  intros Hr. induction todo as [|src todo IH]; intros done newBuffer Ho Hn.
  - simpl in *. rewrite app_nil_r in *. destruct newBuffer. simpl in *. now subst.
  - cbn [List.length fill_channels]. unfold getChannelData.
    rewrite Ho, nth_error_app_head. cbn [rbind].
    rewrite Hn. cbn [List.length repeat].
    rewrite <- (length_map render done) at 1.
    rewrite nth_error_app_head. cbn [rbind].
    rewrite Hr by (rewrite Ho; apply in_elt). cbn [rbind].
    specialize (IH (done ++ [src])
                  (setChannelData newBuffer (List.length done) (render src))).
    rewrite length_app, Nat.add_1_r in IH. rewrite IH.
    + simpl. now rewrite <- app_assoc.
    + now rewrite <- app_assoc.
    + simpl. rewrite Hn. cbn [List.length repeat].
      rewrite <- (length_map render done) at 1.
      rewrite replace_nth_app_head, map_app, <- app_assoc. reflexivity.
Qed.

Lemma createPaddedAudio_render b chunks s w (render : Float32Array -> Float32Array) :
  0 < total_duration (pauseMultiplier s) chunks ->
  (1 <= numberOfChannels b)%nat ->
  (forall src, In src (channels b) ->
     copy_chunks src
       (repeat 0 (Z.to_nat (Math_ceil (total_duration (pauseMultiplier s) chunks))))
       (pauseMultiplier s) chunks 0 = Ok (render src)) ->
  createPaddedAudio b chunks s w
  = (Ok (mkAudioBuffer (sampleRate b)
           (Z.to_nat (Math_ceil (total_duration (pauseMultiplier s) chunks)))
           (map render (channels b))),
     w ++ [CreateBuffer (numberOfChannels b)
             (Math_ceil (total_duration (pauseMultiplier s) chunks)) (sampleRate b)]).
Proof.
  intros Hpos Hn Hr.
  assert (Hsum := totalLength_of_sum chunks (pauseMultiplier s)).
  unfold createPaddedAudio.
  assert (E : Qeq_bool (totalLength_of chunks (pauseMultiplier s)) 0 = false).
  { apply not_true_iff_false. rewrite Qeq_bool_iff. lra. }
  rewrite E. unfold bind, createBuffer, Math_ceil in *.
  rewrite (Qceiling_comp _ _ Hsum).
  assert (Hc : (0 < Qceiling (total_duration (pauseMultiplier s) chunks))%Z).
  { rewrite Zlt_Qlt.
    apply Qlt_le_trans with (total_duration (pauseMultiplier s) chunks);
      [exact Hpos | apply Qle_ceiling]. }
  rewrite (proj2 (Z.leb_gt _ _) Hc).
  rewrite (proj2 (Nat.eqb_neq _ _)) by lia.
  simpl orb. cbv iota. unfold lift.
  set (N := Z.to_nat (Qceiling (total_duration (pauseMultiplier s) chunks))) in *.
  assert (F := fill_channels_render b chunks (pauseMultiplier s) N render Hr
                 (channels b) []
                 (mkAudioBuffer (sampleRate b) N
                    (repeat (repeat 0 N) (numberOfChannels b)))
                 eq_refl eq_refl).
  cbn [List.length app] in F. fold (numberOfChannels b) in F.
  rewrite F. reflexivity.
Qed.

Lemma gaps_of_length n pm chunks : forall position written,
  List.length (gaps_of n pm chunks position written) = List.length chunks.
Proof.
  induction chunks as [|c rest IH]; intros; simpl; [reflexivity | now rewrite IH].
Qed.

Lemma copy_chunks_rendered src pm chunks :
  0 <= pm -> Forall sample_range chunks ->
  copy_chunks src (repeat 0 (Z.to_nat (Math_ceil (total_duration pm chunks))))
              pm chunks 0
  = Ok (rendered (Z.to_nat (Math_ceil (total_duration pm chunks))) pm chunks src).
Proof.
  intros Hpm Hch.
  assert (Hnn := total_duration_nonneg pm chunks Hpm Hch).
  set (N := Z.to_nat (Math_ceil (total_duration pm chunks))).
  assert (H := copy_chunks_interleave src pm chunks Hpm Hch 0 [] N (Qle_refl 0)).
  cbn [List.length app] in H. rewrite Nat.sub_0_r in H.
  unfold rendered. rewrite H; [reflexivity|reflexivity|].
  unfold N, Math_ceil.
  assert (C : (0 <= Qceiling (total_duration pm chunks))%Z).
  { rewrite Zle_Qle. apply Qle_trans with (total_duration pm chunks);
      [exact Hnn | apply Qle_ceiling]. }
  rewrite Z2Nat.id by lia.
  erewrite Qceiling_comp; [apply Z.le_refl|]. ring.
Qed.

(** X3.  For a well-formed buffer, chunks that are ranges of samples and a
    pause multiplier that is not negative, every output channel is the
    chunks of the corresponding input channel, verbatim and in order, each
    preceded by a run of zeros and the last followed by zeros; the runs of
    zeros are the same in all channels. *)
Theorem createPaddedAudio_interleaves (b : AudioBuffer) (chunks : list SpeechChunk)
    (s : Settings) (w : World) :
  wf_AudioBuffer b ->
  chunks <> [] ->
  Forall sample_range chunks ->
  0 <= pauseMultiplier s ->
  exists out gaps,
    fst (createPaddedAudio b chunks s w) = Ok out /\
    List.length gaps = List.length chunks /\
    forall ch src,
      nth_error (channels b) ch = Some src ->
      exists tail,
        nth_error (channels out) ch
        = Some (interleave gaps (map (chunk_samples src) chunks) ++ repeat 0 tail).
Proof.
  intros (Hn & _ & Hall) Hne Hch Hpm.
  assert (Hpos := total_duration_pos _ _ Hpm Hne Hch).
  rewrite (createPaddedAudio_render b chunks s w
             (rendered (Z.to_nat (Math_ceil (total_duration (pauseMultiplier s) chunks)))
                       (pauseMultiplier s) chunks) Hpos Hn)
    by (intros src _; now apply copy_chunks_rendered).
  eexists. exists (gaps_of (length b) (pauseMultiplier s) chunks 0 0).
  split; [reflexivity|]. split; [apply gaps_of_length|].
  intros ch src Hsrc. cbn [fst channels].
  rewrite nth_error_map, Hsrc. cbn [option_map]. unfold rendered.
  rewrite Forall_forall in Hall.
  rewrite (Hall src (nth_error_In _ _ Hsrc)). eexists. reflexivity.
Qed.

Lemma createPaddedAudio_interleaves_witness :
  exists out gaps,
    fst (createPaddedAudio paused_phrase_buffer [mkChunk 0 1; mkChunk 2 3]
           (mkSettings (7 # 100) (3 # 10) (3 # 2)) []) = Ok out /\
    List.length gaps = List.length [mkChunk 0 1; mkChunk 2 3] /\
    forall ch src,
      nth_error (channels paused_phrase_buffer) ch = Some src ->
      exists tail,
        nth_error (channels out) ch
        = Some (interleave gaps (map (chunk_samples src) [mkChunk 0 1; mkChunk 2 3])
                ++ repeat 0 tail).
Proof.
  apply (createPaddedAudio_interleaves paused_phrase_buffer
           [mkChunk 0 1; mkChunk 2 3] (mkSettings (7 # 100) (3 # 10) (3 # 2)) []).
  - split; [vm_compute; lia|]. split; [vm_compute; lia|]. repeat constructor.
  - discriminate.
  - repeat constructor; vm_compute; try reflexivity; discriminate.
  - vm_compute. discriminate.
Defined.

(** X4.  With a whole pause multiplier [k] and chunks inside the buffer,
    every output channel is the concatenation, chunk by chunk, of the
    chunk's samples followed by exactly [k] times as many zeros, and the
    output has [(1 + k)] times the total chunk length as length. *)
Theorem createPaddedAudio_whole_multiplier (b : AudioBuffer)
    (chunks : list SpeechChunk) (s : Settings) (w : World) (k : nat) :
  wf_AudioBuffer b ->
  chunks <> [] ->
  Forall (sample_range_in (length b)) chunks ->
  pauseMultiplier s == of_nat k ->
  exists out,
    fst (createPaddedAudio b chunks s w) = Ok out /\
    length out = padded_total k chunks /\
    channels out
    = map (fun src => List.concat (map (phrase_with_pause k src) chunks)) (channels b).
Proof.
  intros (Hn & _ & Hall) Hne Hin Hk.
  assert (Hch : Forall sample_range chunks).
  { rewrite Forall_forall in *. intros c Hc. exact (proj1 (Hin c Hc)). }
  assert (Hpm : 0 <= pauseMultiplier s) by (rewrite Hk; apply of_nat_nonneg).
  assert (Hpos := total_duration_pos _ _ Hpm Hne Hch).
  assert (HN : Z.to_nat (Math_ceil (total_duration (pauseMultiplier s) chunks))
               = padded_total k chunks).
  { unfold Math_ceil.
    rewrite (Qceiling_comp _ _ (total_duration_whole k _ chunks Hk Hch)).
    unfold of_nat. rewrite Qceiling_Z. apply Nat2Z.id. }
  rewrite (createPaddedAudio_render b chunks s w
             (fun src => List.concat (map (phrase_with_pause k src) chunks)) Hpos Hn).
  - eexists. split; [reflexivity|]. split; [exact HN | reflexivity].
  - intros src Hsrc. rewrite HN.
    rewrite Forall_forall in Hall.
    assert (Hlen := Hall src Hsrc).
    apply (copy_chunks_whole src k (pauseMultiplier s) chunks Hk) with (W := []).
    + now rewrite Hlen.
    + reflexivity.
Qed.

Lemma createPaddedAudio_whole_multiplier_witness :
  exists out,
    fst (createPaddedAudio paused_phrase_buffer [mkChunk 0 1; mkChunk 2 3]
           (mkSettings (7 # 100) (3 # 10) 2) []) = Ok out /\
    length out = padded_total 2 [mkChunk 0 1; mkChunk 2 3] /\
    channels out
    = map (fun src => List.concat (map (phrase_with_pause 2 src)
                                       [mkChunk 0 1; mkChunk 2 3]))
          (channels paused_phrase_buffer).
Proof.
  apply (createPaddedAudio_whole_multiplier paused_phrase_buffer
           [mkChunk 0 1; mkChunk 2 3] (mkSettings (7 # 100) (3 # 10) 2) [] 2).
  - split; [vm_compute; lia|]. split; [vm_compute; lia|]. repeat constructor.
  - discriminate.
  - repeat constructor; vm_compute; try reflexivity; discriminate.
  - reflexivity.
Defined.

(** ** Encoding: the blocks *)

Lemma sampleBlockSize_pos : (1 <= sampleBlockSize)%nat.
Proof. unfold sampleBlockSize. lia. Qed.

Lemma block_count_0 : block_count 0 = 0%nat.
Proof.
  unfold block_count. assert (H := sampleBlockSize_pos).
  apply Nat.div_small. lia.
Qed.

Lemma block_count_pos n :
  (0 < n)%nat -> block_count n = S (block_count (n - sampleBlockSize)).
Proof.
  intros Hn. unfold block_count. assert (H := sampleBlockSize_pos).
  set (B := sampleBlockSize) in *.
  replace (n + (B - 1))%nat with ((n - 1) + 1 * B)%nat by lia.
  rewrite Nat.div_add by lia.
  destruct (Nat.le_gt_cases B n) as [Hge|Hlt].
  - replace (n - B + (B - 1))%nat with (n - 1)%nat by lia. lia.
  - replace (n - B)%nat with 0%nat by lia.
    rewrite (Nat.div_small (n - 1) B) by lia.
    rewrite (Nat.div_small (0 + (B - 1)) B) by lia. reflexivity.
Qed.

Lemma firstn_min_length {A} k (l : list A) :
  firstn (Nat.min k (List.length l)) l = firstn k l.
Proof.
  destruct (Nat.le_gt_cases k (List.length l)) as [H|H].
  - now rewrite Nat.min_l by lia.
  - rewrite Nat.min_r by lia. now rewrite !firstn_all2 by lia.
Qed.

Lemma subarray_block {A} (l : list A) i k :
  subarray l (of_nat i) (of_nat (i + k)) = firstn k (skipn i l).
Proof.
  unfold subarray, relative_index.
  rewrite !trunc_nonneg by apply of_nat_nonneg.
  unfold of_nat. rewrite !Qfloor_Z.
  rewrite (proj2 (Z.ltb_ge _ 0)) by lia.
  rewrite (proj2 (Z.ltb_ge _ 0)) by lia.
  destruct (Nat.le_gt_cases i (List.length l)) as [H|H].
  - replace (Z.to_nat (Z.min (Z.of_nat i) (Z.of_nat (List.length l)))) with i by lia.
    replace (Z.to_nat (Z.min (Z.of_nat (i + k)) (Z.of_nat (List.length l))
                       - Z.min (Z.of_nat i) (Z.of_nat (List.length l))))
      with (Nat.min k (List.length (skipn i l)))
      by (rewrite length_skipn; lia).
    apply firstn_min_length.
  - rewrite (skipn_all2 l (n := i)) by lia.
    replace (Z.to_nat (Z.min (Z.of_nat i) (Z.of_nat (List.length l))))
      with (List.length l) by lia.
    rewrite skipn_all. now rewrite !firstn_nil.
Qed.

(** The loop over the blocks is the fold of [feed] over the block pairs; it
    ends within one unit of fuel per sample. *)
Lemma encode_blocks_fold St (lib : Lamejs St) left right : forall count fuel i st data,
  count = block_count (List.length left - i) ->
  (count < fuel)%nat ->
  encode_blocks St fuel lib st left right i data
  = Ok (fold_left (feed lib) (block_pairs_from count i left right) (st, data)).
Proof.
  induction count as [|count IH]; intros fuel i st data Hc Hf;
    (destruct fuel as [|fuel]; [lia|]); cbn [encode_blocks].
  - destruct (Nat.ltb_spec i (List.length left)) as [Hlt|Hge]; [|reflexivity].
    rewrite block_count_pos in Hc by lia. discriminate.
  - destruct (Nat.ltb_spec i (List.length left)) as [Hlt|Hge].
    + rewrite block_count_pos in Hc by lia. injection Hc as Hc.
      cbn [block_pairs_from fold_left]. rewrite subarray_block.
      unfold feed at 2. cbn [fst snd].
      replace (option_map
                 (fun r => subarray r (of_nat i) (of_nat (i + sampleBlockSize))) right)
        with (option_map (fun r => firstn sampleBlockSize (skipn i r)) right)
        by (destruct right; simpl; [now rewrite subarray_block | reflexivity]).
      destruct (encodeBuffer lib st _ _) as [st' buf].
      apply IH; [|lia].
      rewrite Hc. f_equal. lia.
    + replace (List.length left - i)%nat with 0%nat in Hc by lia.
      rewrite block_count_0 in Hc. discriminate.
Qed.

Lemma block_count_le n : (block_count n <= n)%nat.
Proof.
  induction n as [n IH] using lt_wf_ind.
  destruct n as [|n]; [now rewrite block_count_0|].
  rewrite block_count_pos by lia. assert (H := sampleBlockSize_pos).
  assert (X := IH (S n - sampleBlockSize)%nat). lia.
Qed.

(** The blocks are consecutive, full except perhaps the last, and together
    they are the whole array. *)
Lemma block_pairs_from_partition left right : forall count i,
  count = block_count (List.length left - i) ->
  List.concat (map fst (block_pairs_from count i left right)) = skipn i left /\
  Forall (fun p => (1 <= List.length (fst p) <= sampleBlockSize)%nat)
         (block_pairs_from count i left right).
Proof.
  induction count as [|count IH]; intros i Hc.
  - simpl. split; [|constructor].
    destruct (Nat.le_gt_cases (List.length left) i) as [H|H].
    + now rewrite skipn_all2.
    + rewrite block_count_pos in Hc by lia. discriminate.
  - assert (Hlt : (i < List.length left)%nat).
    { destruct (Nat.le_gt_cases (List.length left) i) as [H|H]; [|exact H].
      replace (List.length left - i)%nat with 0%nat in Hc by lia.
      rewrite block_count_0 in Hc. discriminate. }
    rewrite block_count_pos in Hc by lia. injection Hc as Hc.
    destruct (IH (i + sampleBlockSize)%nat) as [A B]; [rewrite Hc; f_equal; lia|].
    cbn [block_pairs_from map List.concat fst]. split.
    + rewrite A.
      replace (skipn (i + sampleBlockSize) left)
        with (skipn sampleBlockSize (skipn i left))
        by (rewrite skipn_skipn; f_equal; lia).
      apply firstn_skipn.
    + constructor; [|exact B]. cbn [fst].
      rewrite length_firstn, length_skipn. assert (H := sampleBlockSize_pos). lia.
Qed.

Lemma right_blocks_partition left r : forall count i,
  List.length r = List.length left ->
  count = block_count (List.length left - i) ->
  List.concat (right_blocks (block_pairs_from count i left (Some r))) = skipn i r.
Proof.
  intros count i Hlen. revert i.
  induction count as [|count IH]; intros i Hc.
  - simpl. destruct (Nat.le_gt_cases (List.length left) i) as [H|H].
    + now rewrite skipn_all2 by lia.
    + rewrite block_count_pos in Hc by lia. discriminate.
  - assert (Hlt : (i < List.length left)%nat).
    { destruct (Nat.le_gt_cases (List.length left) i) as [H|H]; [|exact H].
      replace (List.length left - i)%nat with 0%nat in Hc by lia.
      rewrite block_count_0 in Hc. discriminate. }
    rewrite block_count_pos in Hc by lia. injection Hc as Hc.
    cbn [block_pairs_from right_blocks flat_map snd option_map app List.concat].
    fold (right_blocks (block_pairs_from count (i + sampleBlockSize) left (Some r))).
    rewrite (IH (i + sampleBlockSize)%nat) by (rewrite Hc; f_equal; lia).
    replace (skipn (i + sampleBlockSize) r)
      with (skipn sampleBlockSize (skipn i r))
      by (rewrite skipn_skipn; f_equal; lia).
    apply firstn_skipn.
Qed.

Lemma block_pairs_from_length left right : forall count i,
  List.length (block_pairs_from count i left right) = count.
Proof. induction count as [|count IH]; intros i; simpl; [reflexivity | now rewrite IH]. Qed.

Lemma block_pairs_from_mono left : forall count i,
  Forall (fun p => snd p = None) (block_pairs_from count i left None).
Proof. induction count as [|count IH]; intros i; simpl; constructor; auto. Qed.

Lemma encodeMp3_fold St (lib : Lamejs St) b channel0 rest :
  channels b = channel0 :: rest ->
  encodeMp3 St (Some lib) b
  = Ok (finish lib
          (fold_left (feed lib)
             (block_pairs (convertBuffer channel0) (encoded_right rest))
             (Mp3Encoder lib (numberOfChannels b) (sampleRate b) 128, []))).
Proof.
  intros Hch. unfold encodeMp3, getChannelData, numberOfChannels. rewrite Hch.
  assert (X := block_count_le (List.length (convertBuffer channel0))).
  destruct rest as [|channel1 rest'];
    cbn [nth_error rbind List.length Nat.ltb Nat.leb encoded_right];
    rewrite (encode_blocks_fold St lib _ _
               (block_count (List.length (convertBuffer channel0))));
    try reflexivity; try lia; now rewrite Nat.sub_0_r.
Qed.

(** X5.  With the encoder present, a buffer with at least one channel is
    encoded by feeding the block encoder the 16-bit samples of the first
    channel (and of the second, if there is one) in consecutive blocks of at
    most 1152 samples: the blocks are not empty, there are
    [ceil(length / 1152)] of them, and put together they are the whole
    converted channel; then the encoder is flushed. *)
Theorem encodeMp3_blocks (EncoderState : Type) (lib : Lamejs EncoderState)
    (b : AudioBuffer) (channel0 : Float32Array) (rest : list Float32Array) :
  channels b = channel0 :: rest ->
  exists pairs,
    encodeMp3 EncoderState (Some lib) b
    = Ok (finish lib
            (fold_left (feed lib) pairs
               (Mp3Encoder lib (numberOfChannels b) (sampleRate b) 128, []))) /\
    List.concat (map fst pairs) = convertBuffer channel0 /\
    Forall (fun p => (1 <= List.length (fst p) <= sampleBlockSize)%nat) pairs /\
    List.length pairs = block_count (List.length channel0) /\
    (rest = [] -> Forall (fun p => snd p = None) pairs) /\
    (forall channel1 rest',
       rest = channel1 :: rest' -> List.length channel1 = List.length channel0 ->
       List.concat (right_blocks pairs) = convertBuffer channel1).
Proof.
  intros Hch. exists (block_pairs (convertBuffer channel0) (encoded_right rest)).
  split; [now apply encodeMp3_fold|].
  unfold block_pairs.
  destruct (block_pairs_from_partition (convertBuffer channel0) (encoded_right rest)
              (block_count (List.length (convertBuffer channel0))) 0)
    as [A B]; [now rewrite Nat.sub_0_r|].
  split; [exact A|]. split; [exact B|]. split.
  - rewrite block_pairs_from_length. unfold convertBuffer. now rewrite length_map.
  - split.
    + intros ->. apply block_pairs_from_mono.
    + intros channel1 rest' -> Hlen. cbn [encoded_right].
      rewrite right_blocks_partition; [reflexivity| |now rewrite Nat.sub_0_r].
      unfold convertBuffer. now rewrite !length_map.
Qed.

Lemma encodeMp3_blocks_witness :
  exists pairs,
    encodeMp3 nat (Some toy_lamejs) paused_phrase_buffer
    = Ok (finish toy_lamejs
            (fold_left (feed toy_lamejs) pairs
               (Mp3Encoder toy_lamejs (numberOfChannels paused_phrase_buffer)
                  (sampleRate paused_phrase_buffer) 128, []))) /\
    List.concat (map fst pairs) = convertBuffer [1 # 2; 0; 1 # 2] /\
    Forall (fun p => (1 <= List.length (fst p) <= sampleBlockSize)%nat) pairs /\
    List.length pairs = block_count (List.length [1 # 2; 0; 1 # 2]) /\
    (@nil Float32Array = [] -> Forall (fun p => snd p = None) pairs) /\
    (forall channel1 rest',
       [] = channel1 :: rest' ->
       List.length channel1 = List.length [1 # 2; 0; 1 # 2] ->
       List.concat (right_blocks pairs) = convertBuffer channel1).
Proof.
  apply (encodeMp3_blocks nat toy_lamejs paused_phrase_buffer [1 # 2; 0; 1 # 2] []).
  reflexivity.
Defined.

Lemma push_nonempty_Forall data buf :
  Forall (fun p : Int8Array => p <> []) data ->
  Forall (fun p : Int8Array => p <> []) (push_nonempty data buf).
Proof.
  intros H. unfold push_nonempty. destruct buf as [|z buf]; simpl; [exact H|].
  apply Forall_app. split; [exact H|]. constructor; [discriminate | constructor].
Qed.

Lemma fold_feed_Forall St (lib : Lamejs St) pairs : forall acc,
  Forall (fun p : Int8Array => p <> []) (snd acc) ->
  Forall (fun p : Int8Array => p <> []) (snd (fold_left (feed lib) pairs acc)).
Proof.
  induction pairs as [|p pairs IH]; intros acc H; [exact H|].
  cbn [fold_left]. apply IH. unfold feed.
  destruct (encodeBuffer lib (fst acc) (fst p) (snd p)) as [st' buf]. cbn [snd].
  now apply push_nonempty_Forall.
Qed.

(** X6.  Whatever the block encoder returns, a blob that [encodeMp3] returns
    has type audio/mpeg and holds no empty part: empty fragments of the
    encoder, and an empty flush, are left out. *)
Theorem encodeMp3_blob (EncoderState : Type) (lamejs : option (Lamejs EncoderState))
    (b : AudioBuffer) (blob : Blob) :
  encodeMp3 EncoderState lamejs b = Ok blob ->
  type_ blob = "audio/mpeg"%string /\ Forall (fun p => p <> []) (parts blob).
Proof.
  intros H. destruct lamejs as [lib|]; [|discriminate].
  destruct (channels b) as [|channel0 rest] eqn:Hch.
  - unfold encodeMp3, getChannelData in H. rewrite Hch in H. discriminate.
  - rewrite (encodeMp3_fold _ lib b channel0 rest Hch) in H. injection H as <-.
    split; [reflexivity|]. unfold finish. cbn [parts].
    apply push_nonempty_Forall. apply fold_feed_Forall. constructor.
Qed.

Lemma encodeMp3_blob_witness :
  type_ (mkBlob [[0%Z]; [1%Z]] "audio/mpeg") = "audio/mpeg"%string /\
  Forall (fun p => p <> []) (parts (mkBlob [[0%Z]; [1%Z]] "audio/mpeg")).
Proof.
  apply (encodeMp3_blob nat (Some toy_lamejs) paused_phrase_buffer).
  vm_compute. reflexivity.
Defined.

(** ** Pace, end to end *)

Lemma scan_started cd thr m fuel : forall i ss chunks ss' chunks',
  started ss chunks ->
  scan cd thr m fuel i ss chunks = Some (ss', chunks') ->
  started ss' chunks'.
Proof.
  induction fuel as [|fuel IH]; intros i ss chunks ss' chunks' Hst H;
    [discriminate|].
  rewrite scan_S in H.
  destruct (Qltb i (of_nat (List.length cd))); [|now injection H as <- <-].
  cbv zeta in H.
  set (ss1 := if abs_gt (get cd i) thr && Qltb ss 0 then i else ss) in *.
  assert (Hst1 : started ss1 chunks).
  { destruct Hst as [Hne|Hss]; [now left|]. right. unfold ss1.
    destruct (nonneg_ltb_0 _ Hss) as [-> _]. now rewrite andb_false_r. }
  destruct (abs_lt (get cd i) thr && Qle_bool 0 ss1).
  - destruct (lookahead cd thr m (S (List.length cd)) i i) as [[j|]|];
      [ | |discriminate].
    + exact (IH _ _ _ _ _ Hst1 H).
    + apply (IH _ _ _ _ _) in H; [exact H|]. left.
      intros E. apply app_eq_nil in E. destruct E as [_ E]. discriminate.
  - exact (IH _ _ _ _ _ Hst1 H).
Qed.

Lemma scan_reaches_onset cd thr m f (Hf : loud_at cd thr f = true) fuel :
  forall n ss chunks ss' chunks',
    ss < 0 -> (n <= f)%nat ->
    scan cd thr m fuel (of_nat n) ss chunks = Some (ss', chunks') ->
    started ss' chunks'.
Proof.
  induction fuel as [|fuel IH]; intros n ss chunks ss' chunks' Hss Hn H;
    [discriminate|].
  assert (Hlen := loud_at_lt cd thr f Hf).
  destruct (loud_at cd thr n) eqn:L.
  - rewrite scan_step_onset in H by assumption.
    apply (scan_started _ _ _ _ _ _ _ _ _) in H; [exact H|].
    right. apply of_nat_nonneg.
  - rewrite scan_step_idle in H by (try assumption; lia).
    apply (IH (S n) _ _ _ _ Hss) in H; [exact H|].
    destruct (Nat.eq_dec n f) as [->|]; [congruence | lia].
Qed.

(** A sample above the threshold in the first channel: some chunk. *)
Lemma detect_nonempty b s cd rest f chunks :
  channels b = cd :: rest ->
  loud_at cd (silenceThreshold s) f = true ->
  detectSpeechChunks b s = Ok chunks ->
  chunks <> [].
Proof.
  intros Hch Hf H. rewrite (detectSpeechChunks_unfold b s cd rest Hch) in H.
  destruct (scan cd (silenceThreshold s) (minSilenceSamples b s)
              (S (List.length cd)) 0 (-1) []) as [[ss cs]|] eqn:E; [|discriminate].
  injection H as <-. change 0 with (of_nat 0) in E at 1.
  assert (Hneg : -1 < 0) by reflexivity.
  destruct (scan_reaches_onset _ _ _ f Hf _ _ _ _ _ _ Hneg (Nat.le_0_l f) E)
    as [Hne|Hss].
  - destruct (Qle_bool 0 ss); [|exact Hne].
    intros X. apply app_eq_nil in X. now destruct X.
  - rewrite (proj2 (Qle_bool_iff 0 ss) Hss).
    intros X. apply app_eq_nil in X. destruct X as [_ X]. discriminate.
Qed.

Lemma onset_whole cd thr x : onset_at cd thr x -> whole x.
Proof. intros (n & Hn & _). apply whole_iff. now exists (Z.of_nat n). Qed.

Lemma pause_whole cd thr x : pause_at cd thr x -> whole x.
Proof. intros (n & Hn & _). apply whole_iff. now exists (Z.of_nat n). Qed.

(** With a window that is not negative, segmentation returns chunks that are
    ranges of samples of the buffer. *)
Lemma detect_ranges b s :
  wf_AudioBuffer b -> 0 <= sampleRate b -> 0 <= minSilenceDuration s ->
  exists chunks,
    detectSpeechChunks b s = Ok chunks /\
    Forall (sample_range_in (length b)) chunks.
Proof.
  intros Hwf Hr Hd.
  destruct (wf_first_channel b Hwf) as (cd & rest & Hch & Hlen).
  assert (Hrun := detectSpeechChunks_unfold b s cd rest Hch).
  destruct (scan_fuel_enough cd (silenceThreshold s) (minSilenceSamples b s)
              (minSilenceSamples_nonneg b s Hr Hd))
    as (ss & chunks & E & Hord & Hlast & Hss).
  rewrite E in Hrun.
  set (out := if Qle_bool 0 ss
              then chunks ++ [mkChunk ss (of_nat (List.length cd))] else chunks) in *.
  exists out. split; [exact Hrun|].
  assert (Hb := detect_boundaries b s cd rest out Hch Hrun).
  assert (Hout : ordered_from 0 out /\ last_end 0 out <= of_nat (length b)).
  { unfold out. rewrite <- Hlen. destruct (Qle_bool 0 ss) eqn:P.
    - apply Qle_bool_iff in P. destruct Hss as [Hneg|(H1 & H2)]; [lra|].
      split; [apply ordered_from_snoc; assumption|].
      rewrite last_end_snoc. apply Qle_refl.
    - now split. }
  destruct Hout as [Ho Hl]. rewrite Forall_forall in *. intros c Hin.
  destruct (ordered_from_bounds out 0 c Ho Hin) as (A & B & C).
  destruct (Hb c Hin) as [Hon Hend].
  split; [|lra]. split; [exact (onset_whole _ _ _ Hon)|]. split; [|now split].
  destruct Hend as [Hp| ->]; [exact (pause_whole _ _ _ Hp) | apply whole_of_nat].
Qed.

Section PaceRuns.
Variable decodeAudio : File -> result AudioBuffer.
Variable EncoderState : Type.
Variable lamejs : option (Lamejs EncoderState).

(** A decoded buffer with speech in it reaches the encoder. *)
Lemma processAudioFile_reaches_encoder file s w b cd rest f :
  decodeAudio file = Ok b ->
  wf_AudioBuffer b ->
  channels b = cd :: rest ->
  loud_at cd (silenceThreshold s) f = true ->
  0 <= sampleRate b -> 0 <= minSilenceDuration s -> 0 <= pauseMultiplier s ->
  exists chunks,
    detectSpeechChunks b s = Ok chunks /\
    chunks <> [] /\
    processAudioFile decodeAudio EncoderState lamejs file s w
    = (encodeMp3 EncoderState lamejs
         (mkAudioBuffer (sampleRate b)
            (Z.to_nat (Math_ceil (total_duration (pauseMultiplier s) chunks)))
            (map (rendered
                    (Z.to_nat (Math_ceil (total_duration (pauseMultiplier s) chunks)))
                    (pauseMultiplier s) chunks)
                 (channels b))),
       w ++ pace_events b chunks s).
Proof.
  intros Hdec Hwf Hch Hf Hr Hd Hpm.
  destruct (detect_ranges b s Hwf Hr Hd) as (chunks & Hdet & Hin).
  assert (Hne := detect_nonempty b s cd rest f chunks Hch Hf Hdet).
  assert (Hranges : Forall sample_range chunks).
  { rewrite Forall_forall in *. intros c Hc. exact (proj1 (Hin c Hc)). }
  assert (Hpos := total_duration_pos _ _ Hpm Hne Hranges).
  exists chunks. split; [exact Hdet|]. split; [exact Hne|].
  unfold processAudioFile.
  unfold bind at 1. unfold setProgress at 1.
  unfold bind at 1. unfold lift at 1. rewrite Hdec.
  unfold bind at 1. unfold setProgress at 1.
  unfold bind at 1. unfold lift at 1. rewrite Hdet.
  destruct chunks as [|c0 chunks']; [congruence|].
  cbn [List.length Nat.eqb].
  unfold bind at 1. unfold setProgress at 1.
  unfold bind at 1.
  rewrite (createPaddedAudio_render b (c0 :: chunks') s _
             (rendered (Z.to_nat (Math_ceil (total_duration (pauseMultiplier s)
                                               (c0 :: chunks'))))
                       (pauseMultiplier s) (c0 :: chunks'))
             Hpos (proj1 Hwf))
    by (intros src _; now apply copy_chunks_rendered).
  unfold bind at 1. unfold setProgress at 1. unfold lift.
  f_equal. unfold pace_events. rewrite <- !app_assoc. reflexivity.
Qed.

Lemma processAudioFile_silent file s w b cd rest :
  decodeAudio file = Ok b ->
  channels b = cd :: rest ->
  (forall k, loud_at cd (silenceThreshold s) k = false) ->
  processAudioFile decodeAudio EncoderState lamejs file s w
  = (Throw no_speech_error,
     w ++ [Progress "Step 1/4: Decoding audio...";
           Progress "Step 2/4: Analyzing for speech..."]).
Proof.
  intros Hdec Hch Hq. apply processAudioFile_no_speech with (b := b); [exact Hdec|].
  exact (detectSpeechChunks_no_onset b s cd rest Hch Hq).
Qed.
End PaceRuns.

(** X7.  For a decoded, well-formed buffer, settings that are not negative
    and an encoder that is present, [processAudioFile] has two outcomes,
    decided by the first channel alone: if one of its samples is above the
    threshold the call returns an audio/mpeg blob after four progress
    messages and one created buffer; if none is, it throws the no-speech
    error after two progress messages and creates nothing. *)
Theorem processAudioFile_outcomes
    (decodeAudio : File -> result AudioBuffer) (EncoderState : Type)
    (lib : Lamejs EncoderState) (file : File) (s : Settings) (w : World)
    (b : AudioBuffer) (cd : Float32Array) (rest : list Float32Array) :
  decodeAudio file = Ok b ->
  wf_AudioBuffer b ->
  channels b = cd :: rest ->
  0 <= sampleRate b -> 0 <= minSilenceDuration s -> 0 <= pauseMultiplier s ->
  ((exists f, loud_at cd (silenceThreshold s) f = true) ->
   exists blob w',
     processAudioFile decodeAudio EncoderState (Some lib) file s w = (Ok blob, w') /\
     type_ blob = "audio/mpeg"%string /\
     List.length (progress_messages w') = (List.length (progress_messages w) + 4)%nat /\
     buffers_created w' = (buffers_created w + 1)%nat) /\
  ((forall k, loud_at cd (silenceThreshold s) k = false) ->
   exists w',
     processAudioFile decodeAudio EncoderState (Some lib) file s w
     = (Throw no_speech_error, w') /\
     List.length (progress_messages w') = (List.length (progress_messages w) + 2)%nat /\
     buffers_created w' = buffers_created w).
Proof.
  intros Hdec Hwf Hch Hr Hd Hpm. split.
  - intros [f Hf].
    destruct (processAudioFile_reaches_encoder decodeAudio EncoderState (Some lib)
                file s w b cd rest f Hdec Hwf Hch Hf Hr Hd Hpm)
      as (chunks & _ & _ & Hrun).
    rewrite Hch in Hrun. cbn [map] in Hrun.
    erewrite encodeMp3_fold in Hrun by reflexivity.
    eexists. eexists. split; [exact Hrun|]. split; [reflexivity|].
    rewrite progress_messages_app, length_app, buffers_created_app.
    split; reflexivity.
  - intros Hq. eexists. split.
    + exact (processAudioFile_silent decodeAudio EncoderState (Some lib)
               file s w b cd rest Hdec Hch Hq).
    + rewrite progress_messages_app, length_app, buffers_created_app.
      split; [reflexivity | cbn; lia].
Qed.

Lemma processAudioFile_outcomes_witness :
  exists blob w',
    processAudioFile toy_decoder nat (Some toy_lamejs) fileA scenario_settings []
    = (Ok blob, w') /\
    type_ blob = "audio/mpeg"%string /\
    List.length (progress_messages w') = (List.length (progress_messages []) + 4)%nat /\
    buffers_created w' = (buffers_created [] + 1)%nat.
Proof.
  refine (proj1 (processAudioFile_outcomes toy_decoder nat toy_lamejs fileA
                   scenario_settings [] bufferA (repeat (1 # 2) 1000) []
                   _ _ _ _ _ _) _).
  - vm_compute. reflexivity.
  - split; [vm_compute; lia|]. split; [vm_compute; lia|].
    constructor; [vm_compute; reflexivity | constructor].
  - reflexivity.
  - vm_compute. discriminate.
  - vm_compute. discriminate.
  - vm_compute. discriminate.
  - exists 0%nat. vm_compute. reflexivity.
Defined.

(** ** Merge, end to end *)

Lemma merge_state_final bs total nch rate merged :
  merge_state bs total nch rate merged ->
  total_frames bs = total ->
  merged = mkAudioBuffer rate total (map (concat_channel bs) (seq 0 nch)).
Proof.
  intros (Sr & Sl & Sn & Sc) Ht. destruct merged as [r l chs].
  cbn [sampleRate length channels] in *. unfold numberOfChannels in Sn.
  cbn [channels] in Sn. subst r l. f_equal.
  apply nth_error_ext. intros c.
  destruct (Nat.lt_ge_cases c nch) as [Hc|Hc].
  - rewrite (Sc c Hc), Ht, Nat.sub_diag. cbn [repeat]. rewrite app_nil_r.
    rewrite nth_error_map, nth_error_seq.
    rewrite (proj2 (Nat.ltb_lt _ _) Hc). reflexivity.
  - rewrite (proj2 (nth_error_None _ _)) by lia.
    symmetry. apply nth_error_None. now rewrite length_map, length_seq.
Qed.

Section MergeRuns.
Variable decodeAudio : File -> result AudioBuffer.
Variable EncoderState : Type.
Variable lamejs : option (Lamejs EncoderState).

(** Buffers of one format reach the encoder as their concatenation. *)
Lemma mergeAudioFiles_reaches_encoder files first others w :
  (2 <= List.length files)%nat ->
  Forall2 (fun f b => decodeAudio f = Ok b) files (first :: others) ->
  Forall wf_AudioBuffer (first :: others) ->
  Forall (same_format first) (first :: others) ->
  mergeAudioFiles decodeAudio EncoderState lamejs files w
  = (encodeMp3 EncoderState lamejs (merged_buffer first (first :: others)),
     w ++ merge_events files first (total_frames (first :: others))).
Proof.
  intros Hn Hdec Hwf Hsame.
  set (bs := first :: others) in *.
  assert (Hof : Forall (buffer_of (numberOfChannels first)) bs).
  { rewrite Forall_forall in *. intros b Hb. apply wf_buffer_of; auto. }
  assert (Hfirst : wf_AudioBuffer first) by (inversion Hwf; assumption).
  destruct Hfirst as (Hch1 & Hlen1 & _).
  assert (Htot : (1 <= total_frames bs)%nat).
  { unfold bs, total_frames. simpl. lia. }
  destruct (createBuffer_state (numberOfChannels first) (total_frames bs)
              (sampleRate first) Hch1 Htot)
    as (mb & Hcb & Hst & Hall).
  destruct (copy_buffers_spec (total_frames bs) (numberOfChannels first)
              (sampleRate first) bs [] mb Hst Hall (Forall_nil _) Hof)
    as (merged & Hcopy & Hfinal); [reflexivity|].
  change (total_frames []) with 0%nat in Hcopy. cbn [app] in Hfinal.
  apply merge_state_final in Hfinal; [|reflexivity].
  unfold mergeAudioFiles, mergeAudioFiles_buffer.
  rewrite (proj2 (Nat.ltb_ge _ _) Hn). cbv zeta.
  unfold bind at 1. unfold bind at 1. unfold setProgress at 1.
  unfold bind at 1. rewrite (decode_all_ok decodeAudio files _ _ _ _ _ Hdec).
  cbn [app]. unfold bind at 1. unfold setProgress at 1.
  fold bs. unfold bs at 1.
  unfold bind at 1. unfold lift at 1.
  fold bs. rewrite (validate_ok first bs 0 Hsame). cbn [Nat.add].
  unfold bind at 1. unfold setProgress at 1.
  unfold bind at 1. rewrite Hcb. unfold lift. rewrite Hcopy.
  unfold merged_buffer. rewrite <- Hfinal. f_equal.
  unfold merge_events, merge_start, merge_step. rewrite <- !app_assoc. reflexivity.
Qed.
End MergeRuns.

(** X8.  Two or more files whose decoded buffers are well formed and share
    the format of the first are merged into an audio/mpeg blob.  The log
    grows by exactly: the Step 1 message, one decoding message per file in
    list order, the validation message, the merging message, and one buffer
    created with the channel count and sample rate of the first buffer and
    the sum of the lengths. *)
Theorem mergeAudioFiles_succeeds
    (decodeAudio : File -> result AudioBuffer) (EncoderState : Type)
    (lib : Lamejs EncoderState)
    (files : list File) (first : AudioBuffer) (others : list AudioBuffer)
    (w : World) :
  (2 <= List.length files)%nat ->
  Forall2 (fun f b => decodeAudio f = Ok b) files (first :: others) ->
  Forall wf_AudioBuffer (first :: others) ->
  Forall (same_format first) (first :: others) ->
  exists blob,
    mergeAudioFiles decodeAudio EncoderState (Some lib) files w
    = (Ok blob, w ++ merge_events files first (total_frames (first :: others))) /\
    type_ blob = "audio/mpeg"%string.
Proof.
  intros Hn Hdec Hwf Hsame.
  rewrite (mergeAudioFiles_reaches_encoder decodeAudio EncoderState (Some lib)
             files first others w Hn Hdec Hwf Hsame).
  assert (Hfirst : wf_AudioBuffer first) by (inversion Hwf; assumption).
  destruct Hfirst as (Hch1 & _ & _).
  destruct (numberOfChannels first) as [|nch] eqn:En; [lia|].
  erewrite encodeMp3_fold
    by (unfold merged_buffer; cbn [channels]; rewrite En; reflexivity).
  eexists. split; reflexivity.
Qed.

Lemma mergeAudioFiles_succeeds_witness :
  exists blob,
    mergeAudioFiles toy_decoder nat (Some toy_lamejs) [fileA; fileB] []
    = (Ok blob, [] ++ merge_events [fileA; fileB] bufferA
                        (total_frames [bufferA; bufferB])) /\
    type_ blob = "audio/mpeg"%string.
Proof.
  apply (mergeAudioFiles_succeeds toy_decoder nat toy_lamejs
           [fileA; fileB] bufferA [bufferB] []).
  - simpl. lia.
  - constructor; [vm_compute; reflexivity|].
    constructor; [vm_compute; reflexivity|]. constructor.
  - constructor; [|constructor; [|constructor]].
    + split; [vm_compute; lia|]. split; [vm_compute; lia|].
      constructor; [vm_compute; reflexivity | constructor].
    + split; [vm_compute; lia|]. split; [vm_compute; lia|].
      constructor; [vm_compute; reflexivity | constructor].
  - constructor; [|constructor; [|constructor]]; split; reflexivity.
Defined.



(** ** Decoding failures *)

Section DecodeFailure.
Variable decodeAudio : File -> result AudioBuffer.
Variable EncoderState : Type.
Variable lamejs : option (Lamejs EncoderState).

Lemma decoding_events_app pre post count : forall i,
  decoding_events (pre ++ post) count i
  = decoding_events pre count i ++ decoding_events post count (i + List.length pre).
Proof.
  induction pre as [|f pre IH]; intros i; cbn [app decoding_events List.length].
  - now rewrite Nat.add_0_r.
  - rewrite IH. cbn [app]. do 3 f_equal. lia.
Qed.

(** The decoding loop stops at the first file that cannot be decoded. *)
Lemma decode_all_fails pre f post e : forall buffers count i acc w,
  Forall2 (fun x b => decodeAudio x = Ok b) pre buffers ->
  decodeAudio f = Throw e ->
  decode_all decodeAudio (pre ++ f :: post) count i acc w
  = (Throw e, w ++ decoding_events (pre ++ [f]) count i).
Proof.
  induction pre as [|x pre IH]; intros buffers count i acc w Hpre Hf.
  - cbn [app decode_all decoding_events].
    unfold bind at 1. unfold setProgress. unfold bind at 1. unfold lift.
    now rewrite Hf.
  - inversion Hpre as [|? b ? bs Hx Hrest]; subst.
    cbn [app decode_all decoding_events].
    unfold bind at 1. unfold setProgress. unfold bind at 1. unfold lift.
    rewrite Hx. rewrite (IH bs _ _ _ _ Hrest Hf). now rewrite <- app_assoc.
Qed.

Lemma mergeAudioFiles_decode_fails pre f post e buffers w :
  (2 <= List.length (pre ++ f :: post))%nat ->
  Forall2 (fun x b => decodeAudio x = Ok b) pre buffers ->
  decodeAudio f = Throw e ->
  mergeAudioFiles decodeAudio EncoderState lamejs (pre ++ f :: post) w
  = (Throw e,
     w ++ merge_start (List.length (pre ++ f :: post))
       ++ decoding_events (pre ++ [f]) (List.length (pre ++ f :: post)) 0).
Proof.
  intros Hn Hpre Hf. unfold mergeAudioFiles, mergeAudioFiles_buffer.
  rewrite (proj2 (Nat.ltb_ge _ _) Hn). cbv zeta.
  unfold bind at 1. unfold bind at 1. unfold setProgress at 1.
  unfold bind at 1.
  rewrite (decode_all_fails pre f post e buffers _ _ _ _ Hpre Hf).
  unfold merge_start. now rewrite <- app_assoc.
Qed.

Lemma processAudioFile_decode_fails file s e w :
  decodeAudio file = Throw e ->
  processAudioFile decodeAudio EncoderState lamejs file s w
  = (Throw e, w ++ [Progress "Step 1/4: Decoding audio..."]).
Proof.
  intros Hf. unfold processAudioFile.
  unfold bind at 1. unfold setProgress at 1. unfold bind at 1. unfold lift at 1.
  now rewrite Hf.
Qed.
End DecodeFailure.

(** X10.  When a file of a Merge list cannot be decoded and the files
    before it can, the decoder's error is thrown unchanged as soon as that
    file is reached: the log then holds the Step 1 message and the decoding
    messages of the files up to and including the failing one, the files
    after it are not announced, and no buffer has been created. *)
Theorem mergeAudioFiles_decode_error
    (decodeAudio : File -> result AudioBuffer) (EncoderState : Type)
    (lamejs : option (Lamejs EncoderState))
    (pre : list File) (f : File) (post : list File) (e : string)
    (buffers : list AudioBuffer) (w : World) :
  (2 <= List.length (pre ++ f :: post))%nat ->
  Forall2 (fun x b => decodeAudio x = Ok b) pre buffers ->
  decodeAudio f = Throw e ->
  exists w',
    mergeAudioFiles decodeAudio EncoderState lamejs (pre ++ f :: post) w
    = (Throw e, w') /\
    w' = w ++ merge_start (List.length (pre ++ f :: post))
           ++ decoding_events (pre ++ [f]) (List.length (pre ++ f :: post)) 0 /\
    List.length (progress_messages w')
    = (List.length (progress_messages w) + List.length pre + 2)%nat /\
    buffers_created w' = buffers_created w.
Proof.
  intros Hn Hpre Hf. eexists. split; [|split; [reflexivity|]].
  - exact (mergeAudioFiles_decode_fails decodeAudio EncoderState lamejs
             pre f post e buffers w Hn Hpre Hf).
  - rewrite !progress_messages_app, !length_app, !buffers_created_app.
    rewrite (proj1 (decoding_events_progress _ _ _)).
    rewrite (proj2 (decoding_events_progress _ _ _)).
    rewrite length_app. cbn. lia.
Qed.

Lemma mergeAudioFiles_decode_error_witness :
  exists w',
    mergeAudioFiles toy_decoder nat (Some toy_lamejs)
      ([fileA] ++ fileBroken :: [fileB]) []
    = (Throw "EncodingError: Unable to decode audio data", w') /\
    w' = [] ++ merge_start (List.length ([fileA] ++ fileBroken :: [fileB]))
            ++ decoding_events ([fileA] ++ [fileBroken])
                 (List.length ([fileA] ++ fileBroken :: [fileB])) 0 /\
    List.length (progress_messages w')
    = (List.length (progress_messages []) + List.length [fileA] + 2)%nat /\
    buffers_created w' = buffers_created [].
Proof.
  apply (mergeAudioFiles_decode_error toy_decoder nat (Some toy_lamejs)
           [fileA] fileBroken [fileB] _ [bufferA] []).
  - simpl. lia.
  - constructor; [vm_compute; reflexivity | constructor].
  - reflexivity.
Defined.

(** ** Validation: which error *)

Lemma validate_first_offender first pre b post : forall acc,
  Forall (same_format first) pre ->
  ~ same_format first b ->
  validate (pre ++ b :: post) (sampleRate first) (numberOfChannels first) acc
  = Throw (if Qeq_bool (sampleRate b) (sampleRate first)
           then channel_count_error (numberOfChannels first)
           else sample_rate_error (sampleRate first)).
Proof.
  induction pre as [|x pre IH]; intros acc Hpre Hb.
  - cbn [app validate].
    destruct (Qeq_bool (sampleRate b) (sampleRate first)) eqn:Er; cbn [negb];
      [|reflexivity].
    destruct (numberOfChannels b =? numberOfChannels first)%nat eqn:Ec; cbn [negb];
      [|reflexivity].
    exfalso. apply Hb. split; [now apply Qeq_bool_iff | now apply Nat.eqb_eq].
  - inversion Hpre as [|? ? [Hr Hc] Hrest]; subst. cbn [app validate].
    rewrite (proj2 (Qeq_bool_iff _ _) Hr), Hc, Nat.eqb_refl. cbn [negb].
    now apply IH.
Qed.

(** X11.  When the decoded buffers of a Merge list are not all of the format
    of the first, the first buffer in list order that differs decides the
    error, and within that buffer the sample rate is looked at before the
    channel count: a differing sample rate gives the sample-rate error even
    if the channel count differs too.  By then every file has been decoded
    and announced, also the ones after the offending buffer; no buffer has
    been created. *)
Theorem mergeAudioFiles_first_mismatch
    (decodeAudio : File -> result AudioBuffer) (EncoderState : Type)
    (lamejs : option (Lamejs EncoderState))
    (files : list File) (first : AudioBuffer)
    (pre : list AudioBuffer) (b : AudioBuffer) (post : list AudioBuffer)
    (w : World) :
  (2 <= List.length files)%nat ->
  Forall2 (fun f x => decodeAudio f = Ok x) files (first :: pre ++ b :: post) ->
  Forall (same_format first) pre ->
  ~ same_format first b ->
  mergeAudioFiles decodeAudio EncoderState lamejs files w
  = (Throw (if Qeq_bool (sampleRate b) (sampleRate first)
            then channel_count_error (numberOfChannels first)
            else sample_rate_error (sampleRate first)),
     w ++ validation_events files).
Proof.
  intros Hn Hdec Hpre Hb.
  assert (Hv := validate_first_offender first (first :: pre) b post 0).
  unfold mergeAudioFiles, mergeAudioFiles_buffer.
  rewrite (proj2 (Nat.ltb_ge _ _) Hn). cbv zeta.
  unfold bind at 1. unfold bind at 1. unfold setProgress at 1.
  unfold bind at 1. rewrite (decode_all_ok decodeAudio files _ _ _ _ _ Hdec).
  cbn [app] in *. unfold bind at 1. unfold setProgress at 1.
  unfold bind at 1. unfold lift at 1.
  rewrite Hv.
  - f_equal. unfold validation_events, merge_start, merge_step.
    now rewrite <- !app_assoc.
  - constructor; [|exact Hpre]. split; [apply Qeq_refl | reflexivity].
  - exact Hb.
Qed.

Lemma mergeAudioFiles_first_mismatch_witness :
  mergeAudioFiles toy_decoder nat (Some toy_lamejs)
    [fileA; fileB; fileStereo441; file480] []
  = (Throw (if Qeq_bool 44100 (sampleRate bufferA)
            then channel_count_error (numberOfChannels bufferA)
            else sample_rate_error (sampleRate bufferA)),
     [] ++ validation_events [fileA; fileB; fileStereo441; file480]).
Proof.
  apply (mergeAudioFiles_first_mismatch toy_decoder nat (Some toy_lamejs)
           [fileA; fileB; fileStereo441; file480] bufferA [bufferB]
           (mkAudioBuffer 44100 4 [repeat (1 # 2) 4; repeat (1 # 2) 4])
           [mono 48000 (repeat (1 # 2) 4)] []).
  - simpl. lia.
  - repeat (constructor; [vm_compute; reflexivity|]). constructor.
  - constructor; [split; reflexivity | constructor].
  - intros [Hr _]. vm_compute in Hr. discriminate.
Defined.

(** ** Conversion to 16-bit PCM, continued *)

Lemma convertSample_trunc x :
  convertSample x = trunc (Math_max (-1) (Math_min 1 x) * 32767).
Proof.
  destruct (clamp_bounds x) as [Hlo Hhi].
  set (c := Math_max (-1) (Math_min 1 x)) in *.
  assert (B : (- (32767) <= trunc (c * 32767) <= 32767)%Z).
  { apply trunc_bounds; [lia| |]; change (inject_Z 32767) with 32767; lra. }
  unfold convertSample, ToInt16. fold c. rewrite Z.mod_small by lia. lia.
Qed.

Lemma clamp_cases x :
  (x <= -1 /\ Math_max (-1) (Math_min 1 x) == -1) \/
  (-1 <= x <= 1 /\ Math_max (-1) (Math_min 1 x) == x) \/
  (1 <= x /\ Math_max (-1) (Math_min 1 x) == 1).
Proof.
  unfold Math_max, Math_min.
  destruct (Qle_bool 1 x) eqn:A.
  - apply Qle_bool_iff in A. right. right. split; [exact A|].
    assert (B : Qle_bool (-1) 1 = true) by reflexivity. rewrite B. reflexivity.
  - apply not_true_iff_false in A. rewrite Qle_bool_iff in A.
    destruct (Qle_bool (-1) x) eqn:B.
    + apply Qle_bool_iff in B. right. left. split; [lra | reflexivity].
    + apply not_true_iff_false in B. rewrite Qle_bool_iff in B.
      left. split; [lra | reflexivity].
Qed.

Lemma clamp_mono x y :
  x <= y ->
  Math_max (-1) (Math_min 1 x) <= Math_max (-1) (Math_min 1 y).
Proof.
  intros H.
  destruct (clamp_cases x) as [[A ->]|[[A ->]|[A ->]]],
           (clamp_cases y) as [[B ->]|[[B ->]|[B ->]]]; lra.
Qed.

Lemma clamp_opp x :
  Math_max (-1) (Math_min 1 (- x)) == - Math_max (-1) (Math_min 1 x).
Proof.
  destruct (clamp_cases x) as [[A ->]|[[A ->]|[A ->]]],
           (clamp_cases (- x)) as [[B ->]|[[B ->]|[B ->]]]; lra.
Qed.

Lemma trunc_comp x y : x == y -> trunc x = trunc y.
Proof.
  intros H. unfold trunc.
  assert (E : Qle_bool 0 x = Qle_bool 0 y).
  { destruct (Qle_bool 0 x) eqn:A, (Qle_bool 0 y) eqn:B; try reflexivity.
    - apply Qle_bool_iff in A. apply not_true_iff_false in B.
      rewrite Qle_bool_iff in B. lra.
    - apply Qle_bool_iff in B. apply not_true_iff_false in A.
      rewrite Qle_bool_iff in A. lra. }
  rewrite E. destruct (Qle_bool 0 y); [now apply Qfloor_comp | now apply Qceiling_comp].
Qed.

Lemma trunc_mono x y : x <= y -> (trunc x <= trunc y)%Z.
Proof.
  intros H. unfold trunc.
  destruct (Qle_bool 0 x) eqn:A, (Qle_bool 0 y) eqn:B.
  - now apply Qfloor_resp_le.
  - apply Qle_bool_iff in A. apply not_true_iff_false in B.
    rewrite Qle_bool_iff in B. lra.
  - apply Qle_bool_iff in B. apply not_true_iff_false in A.
    rewrite Qle_bool_iff in A.
    assert (X : (Qceiling x <= Qceiling (inject_Z 0))%Z).
    { apply Qceiling_resp_le. change (inject_Z 0) with 0. lra. }
    rewrite Qceiling_Z in X. assert (Y := Qfloor_nonneg y B). lia.
  - now apply Qceiling_resp_le.
Qed.

Lemma trunc_opp x : trunc (- x) = (- trunc x)%Z.
Proof.
  unfold trunc.
  destruct (Qle_bool 0 (- x)) eqn:A, (Qle_bool 0 x) eqn:B.
  - apply Qle_bool_iff in A, B.
    assert (E : x == 0) by lra.
    rewrite (Qfloor_comp (- x) (inject_Z 0)) by (change (inject_Z 0) with 0; lra).
    rewrite (Qfloor_comp x (inject_Z 0)) by (change (inject_Z 0) with 0; lra).
    now rewrite Qfloor_Z.
  - unfold Qceiling. lia.
  - unfold Qceiling. now rewrite Qopp_involutive.
  - apply not_true_iff_false in A, B. rewrite Qle_bool_iff in A, B. lra.
Qed.

Lemma trunc_zero_iff v : trunc v = 0%Z <-> -1 < v /\ v < 1.
Proof.
  unfold trunc. destruct (Qle_bool 0 v) eqn:A.
  - apply Qle_bool_iff in A.
    assert (L := Qfloor_le v). assert (U := Qlt_floor v). split.
    + intros E. rewrite E in U. change (inject_Z (0 + 1)) with 1 in U. lra.
    + intros [_ H1].
      assert (X : (Qfloor v < 1)%Z).
      { rewrite Zlt_Qlt. change (inject_Z 1) with 1. lra. }
      assert (Y := Qfloor_nonneg v A). lia.
  - apply not_true_iff_false in A. rewrite Qle_bool_iff in A.
    assert (L := Qle_ceiling v). assert (U := Qceiling_lt v). split.
    + intros E. rewrite E in U. change (inject_Z (0 - 1)) with (-1) in U. lra.
    + intros [H1 _].
      assert (X : (-1 < Qceiling v)%Z).
      { rewrite Zlt_Qlt. change (inject_Z (-1)) with (-1). lra. }
      assert (Y : (Qceiling v <= Qceiling (inject_Z 0))%Z).
      { apply Qceiling_resp_le. change (inject_Z 0) with 0. lra. }
      rewrite Qceiling_Z in Y. lia.
Qed.

(** X12.  The 16-bit conversion keeps the order of samples: a larger sample
    never gets a smaller 16-bit value, also across the clipping points. *)
Theorem convertSample_monotone (x y : Q) :
  x <= y -> (convertSample x <= convertSample y)%Z.
Proof.
  intros H. rewrite !convertSample_trunc. apply trunc_mono.
  assert (X := clamp_mono x y H). lra.
Qed.

Lemma convertSample_monotone_witness :
  (convertSample (-3 # 2) <= convertSample (1 # 3))%Z.
Proof. apply convertSample_monotone. vm_compute. discriminate. Defined.

(** X13.  The 16-bit conversion is odd: the negated sample gives the negated
    value.  Samples from 1 up give 32767 and samples from -1 down give
    -32767.  The value 0 is given exactly to the samples strictly between
    -1/32767 and 1/32767: truncation toward zero makes the zero step twice
    as wide as the others. *)
Theorem convertSample_symmetric (x : Q) :
  convertSample (- x) = (- convertSample x)%Z /\
  (1 <= x -> convertSample x = 32767%Z) /\
  (x <= -1 -> convertSample x = (-32767)%Z) /\
  (convertSample x = 0%Z <-> - (1 # 32767) < x /\ x < 1 # 32767).
Proof.
  rewrite !convertSample_trunc. split; [|split; [|split]].
  - rewrite <- trunc_opp. apply trunc_comp. rewrite clamp_opp. ring.
  - intros H. destruct (clamp_cases x) as [[A E]|[[A E]|[A E]]]; try lra.
    + rewrite (trunc_comp _ (inject_Z 32767)).
      * unfold trunc. cbn [Qle_bool]. now rewrite Qfloor_Z.
      * rewrite E. change (inject_Z 32767) with 32767.
        assert (x == 1) by lra. lra.
    + rewrite (trunc_comp _ (inject_Z 32767)).
      * unfold trunc. now rewrite Qfloor_Z.
      * rewrite E. reflexivity.
  - intros H. destruct (clamp_cases x) as [[A E]|[[A E]|[A E]]]; try lra.
    + rewrite (trunc_comp _ (inject_Z (-32767))).
      * unfold trunc. now rewrite Qceiling_Z.
      * rewrite E. reflexivity.
    + rewrite (trunc_comp _ (inject_Z (-32767))).
      * unfold trunc. now rewrite Qceiling_Z.
      * rewrite E. change (inject_Z (-32767)) with (-32767).
        assert (x == -1) by lra. lra.
  - rewrite trunc_zero_iff.
    destruct (clamp_cases x) as [[A E]|[[A E]|[A E]]]; rewrite E; split;
      intros [P Q]; split; lra.
Qed.

(** * Part V: the handlers of the user interface *)

(** ** The list of files of the Merger *)

Lemma filter_index_past {A} (a : list A) : forall k n,
  (n < k)%nat -> filter_index (fun index => negb (index =? n)%nat) k a = a.
Proof.
  induction a as [|x rest IH]; intros k n Hn; [reflexivity|].
  cbn [filter_index]. rewrite (proj2 (Nat.eqb_neq k n)) by lia.
  cbn [negb]. f_equal. apply IH. lia.
Qed.

Lemma filter_index_remove {A} (a : list A) : forall k i,
  filter_index (fun index => negb (index =? k + i)%nat) k a
  = firstn i a ++ skipn (S i) a.
Proof.
  induction a as [|x rest IH]; intros k i.
  - cbn [filter_index]. now rewrite firstn_nil, skipn_nil.
  - cbn [filter_index]. destruct i as [|i].
    + rewrite Nat.add_0_r, Nat.eqb_refl. cbn [negb firstn skipn app].
      apply filter_index_past. lia.
    + rewrite (proj2 (Nat.eqb_neq k (k + S i))) by lia. cbn [negb firstn skipn app].
      f_equal. replace (k + S i)%nat with (S k + i)%nat by lia. apply IH.
Qed.

Lemma handleRemoveFile_cut {A} i (files : list A) :
  handleRemoveFile i files = firstn i files ++ skipn (S i) files.
Proof. unfold handleRemoveFile. apply (filter_index_remove files 0 i). Qed.

Lemma nth_error_cut {A} (l : list A) i k :
  nth_error (firstn i l ++ skipn (S i) l) k
  = nth_error l (if (k <? i)%nat then k else S k).
Proof.
  destruct (k <? i)%nat eqn:E.
  - apply Nat.ltb_lt in E.
    destruct (Nat.lt_ge_cases k (List.length l)) as [Hk|Hk].
    + rewrite nth_error_app1 by (rewrite length_firstn; lia).
      rewrite nth_error_firstn. now rewrite (proj2 (Nat.ltb_lt _ _) E).
    + rewrite (proj2 (nth_error_None l k)) by lia.
      apply nth_error_None. rewrite length_app, length_firstn, length_skipn. lia.
  - apply Nat.ltb_ge in E.
    destruct (Nat.le_gt_cases (List.length l) i) as [Hi|Hi].
    + rewrite firstn_all2, skipn_all2, app_nil_r by lia.
      rewrite !(proj2 (nth_error_None l _)) by lia. reflexivity.
    + rewrite nth_error_app2 by (rewrite length_firstn; lia).
      rewrite length_firstn, Nat.min_l by lia.
      rewrite nth_error_skipn. f_equal. lia.
Qed.

(** X14.  [handleRemoveFile] takes out the entry at the given position and
    nothing else: the entries before it keep their positions, the entries
    after it move down by one, in the same order; a position past the end
    leaves the list as it is. *)
Theorem handleRemoveFile_removes {A : Type} (indexToRemove : nat) (files : list A) :
  handleRemoveFile indexToRemove files
  = firstn indexToRemove files ++ skipn (S indexToRemove) files /\
  (forall k, nth_error (handleRemoveFile indexToRemove files) k
             = nth_error files (if (k <? indexToRemove)%nat then k else S k)) /\
  ((indexToRemove < List.length files)%nat ->
   S (List.length (handleRemoveFile indexToRemove files)) = List.length files) /\
  ((List.length files <= indexToRemove)%nat ->
   handleRemoveFile indexToRemove files = files).
Proof.
  rewrite handleRemoveFile_cut. split; [reflexivity|]. split; [|split].
  - intros k. apply nth_error_cut.
  - intros H. rewrite length_app, length_firstn, length_skipn. lia.
  - intros H. now rewrite firstn_all2, skipn_all2, app_nil_r by lia.
Qed.

(** *** Drag and drop *)

Lemma handleDragSort_valid {A} (files : list A) i j x :
  nth_error files i = Some x ->
  handleDragSort files (Some i) (Some j)
  = map Some (splice_insert (handleRemoveFile i files) j x).
Proof.
  intros Hx. unfold handleDragSort, splice_delete, splice_insert.
  rewrite handleRemoveFile_cut.
  assert (Hi : (i < List.length files)%nat) by (apply nth_error_Some; congruence).
  assert (Hr : firstn 1 (skipn i (map Some files)) = [Some x]).
  { rewrite skipn_map, firstn_map.
    destruct (skipn i files) as [|y rest] eqn:E.
    - apply (f_equal (@List.length A)) in E. rewrite length_skipn in E.
      simpl in E. lia.
    - assert (Hy : nth_error (skipn i files) 0 = Some y) by now rewrite E.
      rewrite nth_error_skipn, Nat.add_0_r, Hx in Hy. injection Hy as ->.
      reflexivity. }
  rewrite Hr. cbn [nth].
  rewrite !map_app. cbn [map].
  rewrite <- !firstn_map, <- !skipn_map, !map_app.
  now rewrite <- !firstn_map, <- !skipn_map.
Qed.

Lemma splice_insert_cut {A} (l : list A) j x :
  (j <= List.length l)%nat ->
  handleRemoveFile j (splice_insert l j x) = l /\
  nth_error (splice_insert l j x) j = Some x /\
  List.length (splice_insert l j x) = S (List.length l).
Proof.
  intros Hj. unfold splice_insert. rewrite handleRemoveFile_cut.
  assert (L : List.length (firstn j l) = j) by (rewrite length_firstn; lia).
  split; [|split].
  - rewrite firstn_app, L, Nat.sub_diag, firstn_O, app_nil_r.
    rewrite firstn_firstn, Nat.min_id.
    rewrite skipn_app, L.
    rewrite (skipn_all2 (firstn j l)) by lia.
    replace (S j - j)%nat with 1%nat by lia. cbn [skipn app].
    apply firstn_skipn.
  - rewrite nth_error_app2 by lia. rewrite L, Nat.sub_diag. reflexivity.
  - rewrite length_app. cbn [List.length]. rewrite L, length_skipn. lia.
Qed.

Lemma cut_insert_back {A} (l : list A) i x :
  nth_error l i = Some x ->
  splice_insert (handleRemoveFile i l) i x = l.
Proof.
  intros Hx. unfold splice_insert. rewrite handleRemoveFile_cut.
  destruct (nth_error_split l i Hx) as (l1 & l2 & -> & Hl1). subst i.
  assert (F : firstn (List.length l1) (l1 ++ x :: l2) = l1).
  { rewrite firstn_app, Nat.sub_diag, firstn_O, app_nil_r. apply firstn_all. }
  assert (K : skipn (S (List.length l1)) (l1 ++ x :: l2) = l2).
  { rewrite skipn_app, skipn_all2 by lia.
    replace (S (List.length l1) - List.length l1)%nat with 1%nat by lia.
    reflexivity. }
  rewrite F, K.
  rewrite firstn_app, Nat.sub_diag, firstn_O, app_nil_r, firstn_all.
  rewrite skipn_app, skipn_all, Nat.sub_diag. reflexivity.
Qed.

(** X15.  With both positions inside the list, [handleDragSort] moves one
    file and keeps the rest: the new list holds no undefined entry and has
    the old length, the dragged file is at the position it was dropped on,
    and the other files are in their old order.  Dragging it back restores
    the list. *)
Theorem handleDragSort_moves {A : Type} (files : list A) (dragItem dragOverItem : nat) :
  (dragItem < List.length files)%nat ->
  (dragOverItem < List.length files)%nat ->
  exists newFiles,
    handleDragSort files (Some dragItem) (Some dragOverItem) = map Some newFiles /\
    List.length newFiles = List.length files /\
    nth_error newFiles dragOverItem = nth_error files dragItem /\
    handleRemoveFile dragOverItem newFiles = handleRemoveFile dragItem files /\
    handleDragSort newFiles (Some dragOverItem) (Some dragItem) = map Some files.
Proof.
  intros Hi Hj.
  destruct (nth_error files dragItem) as [x|] eqn:Hx;
    [|apply nth_error_None in Hx; lia].
  assert (Lr : S (List.length (handleRemoveFile dragItem files)) = List.length files).
  { rewrite handleRemoveFile_cut, length_app, length_firstn, length_skipn. lia. }
  destruct (splice_insert_cut (handleRemoveFile dragItem files) dragOverItem x)
    as (Hcut & Hnth & Hlen); [lia|].
  exists (splice_insert (handleRemoveFile dragItem files) dragOverItem x).
  split; [now apply handleDragSort_valid|].
  split; [lia|]. split; [exact Hnth|]. split; [exact Hcut|].
  rewrite (handleDragSort_valid _ _ _ x Hnth), Hcut.
  now rewrite cut_insert_back.
Qed.

Lemma handleDragSort_moves_witness :
  exists newFiles,
    handleDragSort [fileA; fileB; fileSilent] (Some 0%nat) (Some 2%nat)
    = map Some newFiles /\
    List.length newFiles = List.length [fileA; fileB; fileSilent] /\
    nth_error newFiles 2 = nth_error [fileA; fileB; fileSilent] 0 /\
    handleRemoveFile 2 newFiles = handleRemoveFile 0 [fileA; fileB; fileSilent] /\
    handleDragSort newFiles (Some 2%nat) (Some 0%nat)
    = map Some [fileA; fileB; fileSilent].
Proof.
  apply (handleDragSort_moves [fileA; fileB; fileSilent] 0 2); simpl; lia.
Defined.

(** X16.  A drag position at or past the end of the list takes nothing out
    and puts an undefined entry in: the list grows by one, and every file
    stays where it was or moves up by one. *)
Theorem handleDragSort_stale {A : Type} (files : list A) (dragItem dragOverItem : nat) :
  (List.length files <= dragItem)%nat ->
  handleDragSort files (Some dragItem) (Some dragOverItem)
  = splice_insert (map Some files) dragOverItem None /\
  List.length (handleDragSort files (Some dragItem) (Some dragOverItem))
  = S (List.length files) /\
  In None (handleDragSort files (Some dragItem) (Some dragOverItem)).
Proof.
  intros Hi.
  assert (E : handleDragSort files (Some dragItem) (Some dragOverItem)
              = splice_insert (map Some files) dragOverItem None).
  { unfold handleDragSort, splice_delete.
    rewrite (skipn_all2 (n := dragItem)) by (rewrite length_map; lia).
    rewrite (skipn_all2 (n := S dragItem)) by (rewrite length_map; lia).
    rewrite (firstn_all2 (n := dragItem)) by (rewrite length_map; lia).
    cbn [firstn nth]. now rewrite app_nil_r. }
  rewrite E. split; [reflexivity|]. unfold splice_insert. split.
  - rewrite length_app. cbn [List.length]. rewrite length_firstn, length_skipn, length_map.
    lia.
  - apply in_or_app. right. now left.
Qed.

Lemma handleDragSort_stale_witness :
  handleDragSort [fileA; fileB] (Some 2%nat) (Some 0%nat)
  = splice_insert (map Some [fileA; fileB]) 0 None /\
  List.length (handleDragSort [fileA; fileB] (Some 2%nat) (Some 0%nat))
  = S (List.length [fileA; fileB]) /\
  In None (handleDragSort [fileA; fileB] (Some 2%nat) (Some 0%nat)).
Proof. apply (handleDragSort_stale [fileA; fileB] 2 0). simpl. lia. Defined.

(** *** Adding files *)



(** ** The name of the download *)

Lemma split_nonempty sep s : split sep s <> [].
Proof.
  destruct s as [|c rest]; cbn [split]; [discriminate|].
  destruct (Ascii.eqb c sep); [discriminate|].
  destruct (split sep rest); discriminate.
Qed.

Lemma split_dotless s : dotless s -> split "." s = [s].
Proof.
  induction s as [|c rest IH]; intros H; [reflexivity|].
  destruct H as [Hc Hrest]. cbn [split].
  rewrite (proj2 (Ascii.eqb_neq c ".") Hc). now rewrite (IH Hrest).
Qed.

Lemma split_app_dot base : forall tail,
  split "." (base ++ String "." tail) = split "." base ++ split "." tail.
Proof.
  induction base as [|c rest IH]; intros tail.
  - reflexivity.
  - cbn [String.append split]. destruct (Ascii.eqb c "."); rewrite IH.
    + reflexivity.
    + destruct (split "." rest) as [|h t] eqn:E; [now apply split_nonempty in E|].
      reflexivity.
Qed.

Lemma join_split s : join "." (split "." s) = s.
Proof.
  unfold join. induction s as [|c rest IH]; [reflexivity|].
  cbn [split]. destruct (Ascii.eqb c ".") eqn:E.
  - apply Ascii.eqb_eq in E. subst c.
    destruct (split "." rest) as [|h t] eqn:S; [now apply split_nonempty in S|].
    rewrite <- IH. reflexivity.
  - destruct (split "." rest) as [|h t] eqn:S; [now apply split_nonempty in S|].
    rewrite <- IH. destruct t; reflexivity.
Qed.

(** X18.  The name offered for the paced file is the name of the input with
    its last extension replaced by [_paced.wav]: whatever stands before the
    last full stop is kept, further full stops included.  A name without a
    full stop is dropped altogether: the download is then called
    [_paced.wav]. *)
Theorem processedFileName_extension (base extension : string) :
  dotless extension ->
  processedFileName (base ++ "." ++ extension) = (base ++ "_paced.wav")%string /\
  processedFileName extension = "_paced.wav"%string.
Proof.
  intros H. unfold processedFileName, originalName, slice_0_minus1. split.
  - change ("." ++ extension)%string with (String "." extension).
    rewrite split_app_dot, (split_dotless extension H).
    rewrite removelast_last. now rewrite join_split.
  - now rewrite (split_dotless extension H).
Qed.

Lemma processedFileName_extension_witness :
  processedFileName ("lesson.01" ++ "." ++ "mp3") = ("lesson.01" ++ "_paced.wav")%string /\
  processedFileName "mp3" = "_paced.wav"%string.
Proof.
  apply (processedFileName_extension "lesson.01" "mp3").
  simpl. repeat split; discriminate.
Defined.
